(** * The equation solver of the resilience lifecycle dashboard

    A shallow embedding of [dashboard/dashboard.js]: the class [Solver], its
    getter [solution] and its two methods [computeDrDt] and [computeDaDt].

    The getter is written against names that the class itself never binds:
    it calls [append] on arrays, reads [self.params] and assigns the
    undeclared identifiers [delta_rob] and [delta_ada].  What these do is
    decided by the global object of the page that loads the script, so the
    embedding carries that global object in its store and every such
    operation consults it, with the outcome ECMAScript prescribes for
    strict code (a class body is always strict). *)

From Stdlib Require Import List Arith Lia Bool.
From Stdlib Require Import Floats.
Import ListNotations.

Set Implicit Arguments.

(** ** Numbers *)

(** The script only uses the literal [1], the operators [+], [-], [*] and the
    comparison [<=].  The embedding is written over this interface, and
    JavaScript's Number, IEEE binary64, is its instance: what is proved for
    every [num] holds of the doubles the script computes on. *)
Class Number (num : Type) : Type := {
  num_one : num;
  num_add : num -> num -> num;
  num_sub : num -> num -> num;
  num_mul : num -> num -> num;
  num_leb : num -> num -> bool
}.

Declare Scope js_scope.
Delimit Scope js_scope with js.
Notation "x + y" := (num_add x y) : js_scope.
Notation "x - y" := (num_sub x y) : js_scope.
Notation "x * y" := (num_mul x y) : js_scope.
Notation "x <=? y" := (num_leb x y) : js_scope.

#[export] Instance float_Number : Number float := {
  num_one := 1%float;
  num_add := PrimFloat.add;
  num_sub := PrimFloat.sub;
  num_mul := PrimFloat.mul;
  num_leb := PrimFloat.leb
}.

(** ** Objects *)

(** [params]: the dictionary handed to the constructor.  The getter also
    reads the keys [time_step] and [end] from it. *)
Record Params (num : Type) : Type := {
  alpha_r : num;
  alpha_a : num;
  q : num;
  gamma_r0 : num;
  gamma_r2 : num;
  gamma_a : num;
  beta_a : num;
  beta_r : num;
  time_step : num;
  end_ : num
}.

(** [initial_values]: keys [robustness], [adaptivity], [time]. *)
Record InitialValues (num : Type) : Type := {
  robustness : num;
  adaptivity : num;
  time : num
}.

(** A [Solver] instance: the constructor stores both arguments as they are. *)
Record Solver (num : Type) : Type := {
  params : Params num;
  initial_values : InitialValues num
}.

Definition constructor {num} (p : Params num) (iv : InitialValues num) : Solver num :=
  {| params := p; initial_values := iv |}.

(** The part of the global object the getter depends on.
    - [Array_prototype_append]: the value found when [append] is looked up
      on an array; [None] is [undefined] (ECMAScript defines no such
      method), [Some f] a function installed by the page, described by what
      it makes of the receiving array.
    - [self_params]: [self.params], where [self] is the global object of a
      browser page or worker; [None] when the global object has no such
      property.
    - [delta_rob], [delta_ada]: the global properties of these names, [None]
      when absent. *)
Record Global (num : Type) : Type := {
  Array_prototype_append : option (list num -> num -> list num);
  self_params : option (Params num);
  delta_rob : option num;
  delta_ada : option num
}.

(** The store: the receiver [this], the global object, and the arrays
    allocated so far (an array reference is its index in [heap]). *)
Record Store (num : Type) : Type := {
  this : Solver num;
  global : Global num;
  heap : list (list num)
}.

(** The object literal built by the getter: three array references. *)
Record Solution : Type := {
  solution_robustness : nat;
  solution_adaptivity : nat;
  solution_time : nat
}.

(** The local variables of the getter that the loop updates. *)
Record Locals (num : Type) : Type := {
  curr_rob : num;
  curr_ada : num;
  curr_time : num
}.

(** The arrays of a [Solution] read out of a store. *)
Record Trajectory (num : Type) : Type := {
  traj_robustness : list num;
  traj_adaptivity : list num;
  traj_time : list num
}.

(** ** Completions and the evaluation monad *)

Inductive JsError : Type := TypeError | ReferenceError.

(** How an evaluation ends: normally, by a thrown error, or not within the
    iteration budget it was given. *)
Inductive Completion (A : Type) : Type :=
| Normal (a : A)
| Throw (e : JsError)
| OutOfFuel.
Arguments Throw {A} e.
Arguments OutOfFuel {A}.

Definition Js (num A : Type) : Type := Store num -> Completion A * Store num.

Definition ret {num A} (a : A) : Js num A := fun st => (Normal a, st).

Definition bind {num A B} (c : Js num A) (k : A -> Js num B) : Js num B :=
  fun st =>
    match c st with
    | (Normal a, st') => k a st'
    | (Throw e, st') => (Throw e, st')
    | (OutOfFuel, st') => (OutOfFuel, st')
    end.

Definition out_of_fuel {num A} : Js num A := fun st => (OutOfFuel, st).

Notation "x <- c ;; k" := (bind c (fun x => k))
  (at level 61, c at next level, right associativity) : js_scope.
Notation "c ;; k" := (bind c (fun _ => k))
  (at level 61, right associativity) : js_scope.

(** Replace the element at index [i]; a list shorter than [i] is unchanged. *)
Fixpoint list_update {A} (l : list A) (i : nat) (x : A) : list A :=
  match l, i with
  | [], _ => []
  | _ :: t, O => x :: t
  | h :: t, S j => h :: list_update t j x
  end.

Section Embedding.
Context {num : Type} `{Number num}.
Local Open Scope js_scope.

(** *** Primitive operations on the store *)

(** [this] *)
Definition get_this : Js num (Solver num) := fun st => (Normal (this st), st).

(** [Array()] *)
Definition new_array : Js num nat :=
  fun st =>
    (Normal (length (heap st)),
     {| this := this st; global := global st; heap := heap st ++ [[]] |}).

(** [arr.append(x)]: calling [undefined] throws a TypeError. *)
Definition array_append (arr : nat) (x : num) : Js num unit :=
  fun st =>
    match Array_prototype_append (global st) with
    | None => (Throw TypeError, st)
    | Some f =>
        match nth_error (heap st) arr with
        | None => (Throw TypeError, st)
        | Some a =>
            (Normal tt,
             {| this := this st; global := global st;
                heap := list_update (heap st) arr (f a x) |})
        end
    end.

(** [self.params.time_step]: a property read on [undefined] throws a
    TypeError. *)
Definition self_params_time_step : Js num num :=
  fun st =>
    match self_params (global st) with
    | None => (Throw TypeError, st)
    | Some p => (Normal (time_step p), st)
    end.

(** [delta_rob = v] in strict code: a ReferenceError unless the name
    resolves, here to a property of the global object. *)
Definition put_delta_rob (v : num) : Js num unit :=
  fun st =>
    match delta_rob (global st) with
    | None => (Throw ReferenceError, st)
    | Some _ =>
        (Normal tt,
         {| this := this st;
            global := {| Array_prototype_append := Array_prototype_append (global st);
                         self_params := self_params (global st);
                         delta_rob := Some v;
                         delta_ada := delta_ada (global st) |};
            heap := heap st |})
    end.

Definition put_delta_ada (v : num) : Js num unit :=
  fun st =>
    match delta_ada (global st) with
    | None => (Throw ReferenceError, st)
    | Some _ =>
        (Normal tt,
         {| this := this st;
            global := {| Array_prototype_append := Array_prototype_append (global st);
                         self_params := self_params (global st);
                         delta_rob := delta_rob (global st);
                         delta_ada := Some v |};
            heap := heap st |})
    end.

(** Reading the identifiers [delta_rob] and [delta_ada]. *)
Definition get_delta_rob : Js num num :=
  fun st =>
    match delta_rob (global st) with
    | None => (Throw ReferenceError, st)
    | Some v => (Normal v, st)
    end.

Definition get_delta_ada : Js num num :=
  fun st =>
    match delta_ada (global st) with
    | None => (Throw ReferenceError, st)
    | Some v => (Normal v, st)
    end.

(** *** The methods of [Solver] *)

(** The expression returned by [computeDrDt]:
    [alpha_r*(1 - q) + gamma_r0*rob - gamma_r2*rob*rob*rob - beta_a * ada],
    with JavaScript's precedence and left associativity. *)
Definition dRdt (p : Params num) (rob ada : num) : num :=
  alpha_r p * (num_one - q p) + gamma_r0 p * rob
  - gamma_r2 p * rob * rob * rob - beta_a p * ada.

(** The expression returned by [computeDaDt]:
    [alpha_a*q - gamma_a*ada + beta_r*rob]. *)
Definition dAdt (p : Params num) (rob ada : num) : num :=
  alpha_a p * q p - gamma_a p * ada + beta_r p * rob.

(** [computeDrDt(rob, ada)]: destructures [this.params], returns the
    expression. *)
Definition computeDrDt (rob ada : num) : Js num num :=
  s <- get_this ;;
  ret (dRdt (params s) rob ada).

(** [computeDaDt(rob, ada)] *)
Definition computeDaDt (rob ada : num) : Js num num :=
  s <- get_this ;;
  ret (dAdt (params s) rob ada).

(** The body of the [while] loop of [solution], statement by statement. *)
Definition loop_body (sol : Solution) (l : Locals num) : Js num (Locals num) :=
  array_append (solution_robustness sol) (curr_rob l) ;;
  array_append (solution_adaptivity sol) (curr_ada l) ;;
  array_append (solution_time sol) (curr_time l) ;;
  dr <- computeDrDt (curr_rob l) (curr_ada l) ;;
  ts_r <- self_params_time_step ;;
  put_delta_rob (dr * ts_r) ;;
  da <- computeDaDt (curr_rob l) (curr_ada l) ;;
  ts_a <- self_params_time_step ;;
  put_delta_ada (da * ts_a) ;;
  d_rob <- get_delta_rob ;;
  d_ada <- get_delta_ada ;;
  s <- get_this ;;
  ret {| curr_rob := curr_rob l + d_rob;
         curr_ada := curr_ada l + d_ada;
         curr_time := curr_time l + time_step (params s) |}.

(** [while (curr_time <= this.params.end) { ... }]; every iteration takes
    one unit of [fuel], testing the guard takes none. *)
Fixpoint while_loop (fuel : nat) (sol : Solution) (l : Locals num) : Js num (Locals num) :=
  s <- get_this ;;
  if curr_time l <=? end_ (params s) then
    match fuel with
    | O => out_of_fuel
    | S fuel' => l' <- loop_body sol l ;; while_loop fuel' sol l'
    end
  else ret l.

(** [get solution()] *)
Definition solution (fuel : nat) : Js num Solution :=
  s <- get_this ;;
  let l := {| curr_rob := robustness (initial_values s);
              curr_ada := adaptivity (initial_values s);
              curr_time := time (initial_values s) |} in
  r <- new_array ;;
  a <- new_array ;;
  t <- new_array ;;
  let sol := {| solution_robustness := r; solution_adaptivity := a; solution_time := t |} in
  while_loop fuel sol l ;;
  ret sol.

(** *** Observing a run *)

(** The three arrays a [Solution] refers to, as they are in a store. *)
Definition read_solution (st : Store num) (sol : Solution) : option (Trajectory num) :=
  match nth_error (heap st) (solution_robustness sol),
        nth_error (heap st) (solution_adaptivity sol),
        nth_error (heap st) (solution_time sol) with
  | Some r, Some a, Some t =>
      Some {| traj_robustness := r; traj_adaptivity := a; traj_time := t |}
  | _, _, _ => None
  end.

(** What the caller of the getter sees: the returned arrays or the error. *)
Definition observe (r : Completion Solution * Store num) : Completion (option (Trajectory num)) :=
  match fst r with
  | Normal sol => Normal (read_solution (snd r) sol)
  | Throw e => Throw e
  | OutOfFuel => OutOfFuel
  end.

(** The getter finishes, normally or by an error, within [n] iterations
    of its loop. *)
Definition completes_within (n : nat) (st : Store num) : Prop :=
  fst (solution n st) <> OutOfFuel.

(** *** What the getter depends on, and its loop as a function of that *)

(** The getter never reads the values of [delta_rob] and [delta_ada]
    before it has assigned them; of the global object only this much
    matters to it. *)
Record Host : Type := {
  host_append : option (list num -> num -> list num);
  host_self_params : option (Params num);
  host_delta_rob : bool;
  host_delta_ada : bool
}.

Definition is_some {A} (o : option A) : bool :=
  match o with Some _ => true | None => false end.

Definition host_of (g : Global num) : Host :=
  {| host_append := Array_prototype_append g;
     host_self_params := self_params g;
     host_delta_rob := is_some (delta_rob g);
     host_delta_ada := is_some (delta_ada g) |}.

(** The arrays after the three [append] calls of one iteration. *)
Definition step_traj (h : Host) (l : Locals num) (tr : Trajectory num) : Trajectory num :=
  match host_append h with
  | None => tr
  | Some f =>
      {| traj_robustness := f (traj_robustness tr) (curr_rob l);
         traj_adaptivity := f (traj_adaptivity tr) (curr_ada l);
         traj_time := f (traj_time tr) (curr_time l) |}
  end.

(** How one iteration ends, and with which locals. *)
Definition step_outcome (h : Host) (s : Solver num) (l : Locals num) : Completion (Locals num) :=
  match host_append h with
  | None => Throw TypeError
  | Some _ =>
      match host_self_params h with
      | None => Throw TypeError
      | Some sp =>
          if host_delta_rob h then
            if host_delta_ada h then
              Normal
                {| curr_rob := curr_rob l + dRdt (params s) (curr_rob l) (curr_ada l) * time_step sp;
                   curr_ada := curr_ada l + dAdt (params s) (curr_rob l) (curr_ada l) * time_step sp;
                   curr_time := curr_time l + time_step (params s) |}
            else Throw ReferenceError
          else Throw ReferenceError
      end
  end.

(** The loop on values: the completion, the locals and the arrays. *)
Fixpoint euler (fuel : nat) (h : Host) (s : Solver num) (l : Locals num) (tr : Trajectory num)
  : Completion (Locals num) * Trajectory num :=
  if curr_time l <=? end_ (params s) then
    match fuel with
    | O => (OutOfFuel, tr)
    | S fuel' =>
        match step_outcome h s l with
        | Normal l' => euler fuel' h s l' (step_traj h l tr)
        | Throw e => (Throw e, step_traj h l tr)
        | OutOfFuel => (OutOfFuel, step_traj h l tr)
        end
    end
  else (Normal l, tr).

Definition empty_trajectory : Trajectory num :=
  {| traj_robustness := []; traj_adaptivity := []; traj_time := [] |}.

Definition initial_locals (s : Solver num) : Locals num :=
  {| curr_rob := robustness (initial_values s);
     curr_ada := adaptivity (initial_values s);
     curr_time := time (initial_values s) |}.

(** What a caller observes of the getter, on values. *)
Definition euler_result (fuel : nat) (h : Host) (s : Solver num)
  : Completion (option (Trajectory num)) :=
  match euler fuel h s (initial_locals s) empty_trajectory with
  | (Normal _, tr) => Normal (Some tr)
  | (Throw e, _) => Throw e
  | (OutOfFuel, _) => OutOfFuel
  end.

(** The three references of a [Solution] are distinct and hold [tr]. *)
Definition holds (st : Store num) (sol : Solution) (tr : Trajectory num) : Prop :=
  solution_robustness sol <> solution_adaptivity sol /\
  solution_robustness sol <> solution_time sol /\
  solution_adaptivity sol <> solution_time sol /\
  read_solution st sol = Some tr.

(** [st'] has the receiver of [st], binds the getter's free names as [st]
    does, and has every array of [st] below reference [n] as it is in [st]. *)
Definition frame (n : nat) (st st' : Store num) : Prop :=
  this st' = this st /\
  host_of (global st') = host_of (global st) /\
  forall i a, i < n -> nth_error (heap st) i = Some a -> nth_error (heap st') i = Some a.

(** A computation that keeps the frame from every store. *)
Definition preserves {A} (n : nat) (c : Js num A) : Prop :=
  forall st, frame n st (snd (c st)).

(** *** Pages *)

(** A page that defines nothing beyond ECMAScript and the browser's own
    globals: no [append] on arrays, no [params], [delta_rob] or
    [delta_ada] on the global object. *)
Definition standard_global : Global num :=
  {| Array_prototype_append := None; self_params := None;
     delta_rob := None; delta_ada := None |}.

(** A page that supplies every name the getter leaves unbound: [append]
    is [push], [self.params] is the solver's own [params], and
    [delta_rob], [delta_ada] are declared globals. *)
Definition supplying_global (p : Params num) (d : num) : Global num :=
  {| Array_prototype_append := Some (fun a x => a ++ [x]); self_params := Some p;
     delta_rob := Some d; delta_ada := Some d |}.

(** A page that only adds [append] (as [push]) to arrays. *)
Definition append_only_global : Global num :=
  {| Array_prototype_append := Some (fun a x => a ++ [x]); self_params := None;
     delta_rob := None; delta_ada := None |}.

(** A page that adds [append] and a global [params], and declares neither
    [delta_rob] nor [delta_ada]. *)
Definition undeclared_delta_global (p : Params num) : Global num :=
  {| Array_prototype_append := Some (fun a x => a ++ [x]); self_params := Some p;
     delta_rob := None; delta_ada := None |}.

(** [g] binds each name the getter leaves unbound the way the getter's
    comments and the rest of the class use it: [append] adds at the end,
    [self.params] is the parameters [p], [delta_rob] and [delta_ada] exist. *)
Definition supplying_host (p : Params num) : Host :=
  {| host_append := Some (fun a x => a ++ [x]); host_self_params := Some p;
     host_delta_rob := true; host_delta_ada := true |}.

Definition binds_names (g : Global num) (p : Params num) : Prop :=
  host_of g = supplying_host p.

(** The locals after one full iteration on such a page. *)
Definition euler_step (p : Params num) (l : Locals num) : Locals num :=
  {| curr_rob := curr_rob l + dRdt p (curr_rob l) (curr_ada l) * time_step p;
     curr_ada := curr_ada l + dAdt p (curr_rob l) (curr_ada l) * time_step p;
     curr_time := curr_time l + time_step p |}.

(** The locals at the start of each iteration, in order. *)
Fixpoint visited (fuel : nat) (p : Params num) (l : Locals num) : list (Locals num) :=
  if curr_time l <=? end_ p then
    match fuel with
    | O => []
    | S fuel' => l :: visited fuel' p (euler_step p l)
    end
  else [].

(** [tr] with the samples [ls] appended. *)
Definition extend (tr : Trajectory num) (ls : list (Locals num)) : Trajectory num :=
  {| traj_robustness := traj_robustness tr ++ map (@curr_rob num) ls;
     traj_adaptivity := traj_adaptivity tr ++ map (@curr_ada num) ls;
     traj_time := traj_time tr ++ map (@curr_time num) ls |}.

Definition initial_store (s : Solver num) (g : Global num) : Store num :=
  {| this := s; global := g; heap := [] |}.

End Embedding.

(** ** Further notions *)

Section FurtherNotions.
Context {num : Type} `{Number num}.
Local Open Scope js_scope.

(** Each of the four names the getter leaves unbound is bound on the page. *)
Definition all_bound (g : Global num) : Prop :=
  Array_prototype_append g <> None /\ self_params g <> None /\
  delta_rob g <> None /\ delta_ada g <> None.

(** The store [st] with another receiver. *)
Definition with_this (s : Solver num) (st : Store num) : Store num :=
  {| this := s; global := global st; heap := heap st |}.

(** A computation that leaves the number of allocated arrays as it is. *)
Definition keeps_heap_length {A} (c : Js num A) : Prop :=
  forall st, length (heap (snd (c st))) = length (heap st).

(** A page on which [append] is [push], [delta_rob] and [delta_ada] are
    declared, and [self.params] is some object [sp] of its own. *)
Definition page_params_host (sp : Params num) : Host :=
  {| host_append := Some (fun a x => a ++ [x]); host_self_params := Some sp;
     host_delta_rob := true; host_delta_ada := true |}.

(** The locals after one iteration on such a page: the increments of the
    state are scaled by [self.params.time_step], the time advances by
    [this.params.time_step]. *)
Definition page_step (p sp : Params num) (l : Locals num) : Locals num :=
  {| curr_rob := curr_rob l + dRdt p (curr_rob l) (curr_ada l) * time_step sp;
     curr_ada := curr_ada l + dAdt p (curr_rob l) (curr_ada l) * time_step sp;
     curr_time := curr_time l + time_step p |}.

Fixpoint page_visited (fuel : nat) (p sp : Params num) (l : Locals num) : list (Locals num) :=
  if curr_time l <=? end_ p then
    match fuel with
    | O => []
    | S fuel' => l :: page_visited fuel' p sp (page_step p sp l)
    end
  else [].

(** The time after [k] iterations: [this.params.time_step] added [k] times
    to [t], one addition after the other, as [curr_time += ...] does. *)
Definition advanced_time (p : Params num) (k : nat) (t : num) : num :=
  Nat.iter k (fun t' => t' + time_step p) t.

(** The formula the specification gives for [dRdt], the cube of [rob]
    taken first and then multiplied by [gamma_r2]. *)
Definition dRdt_with_cube (p : Params num) (rob ada : num) : num :=
  alpha_r p * (num_one - q p) + gamma_r0 p * rob
  - gamma_r2 p * (rob * rob * rob) - beta_a p * ada.

End FurtherNotions.

(** ** Inputs used below *)

Module Scenario.
Local Open Scope float_scope.

(** The run the specification works out by hand:
    [alpha_r=1, alpha_a=1, q=0.5], every other coefficient [0],
    [time_step=1], [end=2], started at [(0, 0, 0)]. *)
Definition constant_drive : Solver float :=
  constructor
    {| alpha_r := 1; alpha_a := 1; q := 0.5; gamma_r0 := 0; gamma_r2 := 0;
       gamma_a := 0; beta_a := 0; beta_r := 0; time_step := 1; end_ := 2 |}
    {| robustness := 0; adaptivity := 0; time := 0 |}.

(** [time_step = 0], started after [end]. *)
Definition zero_step : Solver float :=
  constructor
    {| alpha_r := 1; alpha_a := 1; q := 0.5; gamma_r0 := 0; gamma_r2 := 0;
       gamma_a := 0; beta_a := 0; beta_r := 0; time_step := 0; end_ := 0 |}
    {| robustness := 0; adaptivity := 0; time := 1 |}.

(** [time_step = -1], started after [end]. *)
Definition negative_step : Solver float :=
  constructor
    {| alpha_r := 1; alpha_a := 1; q := 0.5; gamma_r0 := 0; gamma_r2 := 0;
       gamma_a := 0; beta_a := 0; beta_r := 0; time_step := -1; end_ := 0 |}
    {| robustness := 0; adaptivity := 0; time := 1 |}.

(** [end] equal to the initial time. *)
Definition end_at_start : Solver float :=
  constructor
    {| alpha_r := 1; alpha_a := 1; q := 0.5; gamma_r0 := 0; gamma_r2 := 0;
       gamma_a := 0; beta_a := 0; beta_r := 0; time_step := 1; end_ := 0 |}
    {| robustness := 3; adaptivity := 4; time := 0 |}.

(** [end] before the initial time. *)
Definition end_before_start : Solver float :=
  constructor
    {| alpha_r := 1; alpha_a := 1; q := 0.5; gamma_r0 := 0; gamma_r2 := 0;
       gamma_a := 0; beta_a := 0; beta_r := 0; time_step := 1; end_ := 0 |}
    {| robustness := 3; adaptivity := 4; time := 10 |}.

(** Both derivatives vanish at the initial state [(1, 1)]:
    [0*(1-1) + 1*1 - 1*1*1*1 - 0*1 = 0] and [1*1 - 1*1 + 0*1 = 0]. *)
Definition equilibrium : Solver float :=
  constructor
    {| alpha_r := 0; alpha_a := 1; q := 1; gamma_r0 := 1; gamma_r2 := 1;
       gamma_a := 1; beta_a := 0; beta_r := 0; time_step := 1; end_ := 2 |}
    {| robustness := 1; adaptivity := 1; time := 0 |}.

(** [time_step] is NaN. *)
Definition nan_step : Solver float :=
  constructor
    {| alpha_r := 1; alpha_a := 1; q := 0.5; gamma_r0 := 0; gamma_r2 := 0;
       gamma_a := 0; beta_a := 0; beta_r := 0; time_step := nan; end_ := 2 |}
    {| robustness := 0; adaptivity := 0; time := 0 |}.

(** A step that the initial time absorbs: [2^53 + 1] rounds to [2^53]. *)
Definition absorbed_step : Solver float :=
  constructor
    {| alpha_r := 0; alpha_a := 0; q := 0; gamma_r0 := 0; gamma_r2 := 0;
       gamma_a := 0; beta_a := 0; beta_r := 0; time_step := 1;
       end_ := 18014398509481984 |}
    {| robustness := 0; adaptivity := 0; time := 9007199254740992 |}.

(** A store that already holds one array. *)
Definition with_old_array : Store float :=
  {| this := constant_drive; global := supplying_global (params constant_drive) 0;
     heap := [[7; 8]] |}.

(** The worked run on a page that binds the names, and what it returns. *)
Definition bound_constant_drive : Store float :=
  initial_store constant_drive (supplying_global (params constant_drive) 0).

Definition constant_drive_trajectory : Trajectory float :=
  {| traj_robustness := [0; 0.5; 1]; traj_adaptivity := [0; 0.5; 1];
     traj_time := [0; 1; 2] |}.

(** The worked run on a page whose global [params] has [time_step = 2]. *)
Definition page_with_other_params : Store float :=
  initial_store constant_drive
    {| Array_prototype_append := Some (fun a x => a ++ [x]);
       self_params :=
         Some {| alpha_r := 1; alpha_a := 1; q := 0.5; gamma_r0 := 0; gamma_r2 := 0;
                 gamma_a := 0; beta_a := 0; beta_r := 0; time_step := 2; end_ := 2 |};
       delta_rob := Some 0; delta_ada := Some 0 |}.

Definition other_params_trajectory : Trajectory float :=
  {| traj_robustness := [0; 1; 2]; traj_adaptivity := [0; 1; 2];
     traj_time := [0; 1; 2] |}.

(** The initial time is NaN. *)
Definition nan_start : Store float :=
  initial_store
    (constructor
       {| alpha_r := 1; alpha_a := 1; q := 0.5; gamma_r0 := 0; gamma_r2 := 0;
          gamma_a := 0; beta_a := 0; beta_r := 0; time_step := 1; end_ := 2 |}
       {| robustness := 0; adaptivity := 0; time := nan |})
    standard_global.

(** The initial robustness is NaN, on a page that binds the names. *)
Definition nan_state : Store float :=
  initial_store
    (constructor
       {| alpha_r := 1; alpha_a := 1; q := 0.5; gamma_r0 := 0; gamma_r2 := 0;
          gamma_a := 0; beta_a := 0; beta_r := 0; time_step := 1; end_ := 1 |}
       {| robustness := nan; adaptivity := 0; time := 0 |})
    (supplying_global
       {| alpha_r := 1; alpha_a := 1; q := 0.5; gamma_r0 := 0; gamma_r2 := 0;
          gamma_a := 0; beta_a := 0; beta_r := 0; time_step := 1; end_ := 1 |} 0).

Definition nan_state_trajectory : Trajectory float :=
  {| traj_robustness := [nan; nan]; traj_adaptivity := [0; nan]; traj_time := [0; 1] |}.

Definition bound_absorbed_step : Store float :=
  initial_store absorbed_step (supplying_global (params absorbed_step) 0).

Definition bound_nan_step : Store float :=
  initial_store nan_step (supplying_global (params nan_step) 0).

(** [gamma_r2] is the double nearest to [0.9] and every other coefficient
    is [0]. *)
Definition cubic_only : Params float :=
  {| alpha_r := 0; alpha_a := 0; q := 0; gamma_r0 := 0;
     gamma_r2 := 0x1.ccccccccccccdp-1; gamma_a := 0; beta_a := 0; beta_r := 0;
     time_step := 1; end_ := 2 |}.

(** [gamma_r2] is the double nearest to [1e-300], to be used at [rob] the
    double nearest to [1e200]. *)
Definition tiny_cubic : Params float :=
  {| alpha_r := 0; alpha_a := 0; q := 0; gamma_r0 := 0;
     gamma_r2 := 0x1.56e1fc2f8f359p-997; gamma_a := 0; beta_a := 0; beta_r := 0;
     time_step := 1; end_ := 2 |}.

(** On a page that binds the names: [time_step] the double nearest to
    [0.1], [end] the double nearest to [0.3], started at [0]. *)
Definition tenth_steps : Store float :=
  initial_store
    (constructor
       {| alpha_r := 1; alpha_a := 1; q := 0.5; gamma_r0 := 0; gamma_r2 := 0;
          gamma_a := 0; beta_a := 0; beta_r := 0;
          time_step := 0x1.999999999999ap-4; end_ := 0x1.3333333333333p-2 |}
       {| robustness := 0; adaptivity := 0; time := 0 |})
    (supplying_global
       {| alpha_r := 1; alpha_a := 1; q := 0.5; gamma_r0 := 0; gamma_r2 := 0;
          gamma_a := 0; beta_a := 0; beta_r := 0;
          time_step := 0x1.999999999999ap-4; end_ := 0x1.3333333333333p-2 |} 0).

(** On a page that binds the names: both derivatives vanish at the initial
    state [(1, 1)]; three iterations. *)
Definition bound_equilibrium : Store float :=
  initial_store equilibrium (supplying_global (params equilibrium) 0).

(** On a page that binds the names: [time_step = -1], started at [0]
    before [end = 1]. *)
Definition backward : Store float :=
  initial_store
    (constructor
       {| alpha_r := 1; alpha_a := 1; q := 0.5; gamma_r0 := 0; gamma_r2 := 0;
          gamma_a := 0; beta_a := 0; beta_r := 0; time_step := -1; end_ := 1 |}
       {| robustness := 0; adaptivity := 0; time := 0 |})
    (supplying_global
       {| alpha_r := 1; alpha_a := 1; q := 0.5; gamma_r0 := 0; gamma_r2 := 0;
          gamma_a := 0; beta_a := 0; beta_r := 0; time_step := -1; end_ := 1 |} 0).

End Scenario.

(** * Properties *)

(** ** Array updates *)

Lemma nth_error_list_update_same {A} (l : list A) i x a :
  nth_error l i = Some a -> nth_error (list_update l i x) i = Some x.
Proof.
  revert i; induction l as [|h t IH]; intros [|j]; simpl; try discriminate; auto.
Qed.

Lemma nth_error_list_update_other {A} (l : list A) i j x :
  i <> j -> nth_error (list_update l i x) j = nth_error l j.
Proof.
  revert i j; induction l as [|h t IH]; intros [|i] [|j] Hne; simpl; auto;
    congruence.
Qed.

Lemma nth_error_snoc_old {A} (l : list A) x i a :
  nth_error l i = Some a -> nth_error (l ++ [x]) i = Some a.
Proof.
  intros Hi. rewrite nth_error_app1; auto.
  apply nth_error_Some. congruence.
Qed.

Lemma nth_error_snoc_new {A} (l : list A) x : nth_error (l ++ [x]) (length l) = Some x.
Proof.
  rewrite nth_error_app2 by lia. rewrite Nat.sub_diag. reflexivity.
Qed.

Section StoreProperties.
Context {num : Type} `{Number num}.
Local Open Scope js_scope.

(** ** The frame of the getter *)

Lemma frame_refl n (st : Store num) : frame n st st.
Proof. repeat split; auto. Qed.

Lemma frame_trans n (st1 st2 st3 : Store num) :
  frame n st1 st2 -> frame n st2 st3 -> frame n st1 st3.
Proof.
  intros (Ht & Hh & Ha) (Ht' & Hh' & Ha'). repeat split.
  - congruence.
  - congruence.
  - intros i a Hi Hn. apply Ha'; auto.
Qed.

Lemma preserves_ret {A} n (a : A) : preserves (num := num) n (ret a).
Proof. intros st. apply frame_refl. Qed.

Lemma preserves_bind {A B} n (c : Js num A) (k : A -> Js num B) :
  preserves (num := num) n c -> (forall a, preserves (num := num) n (k a)) -> preserves (num := num) n (bind c k).
Proof.
  intros Hc Hk st. unfold bind. specialize (Hc st).
  destruct (c st) as [[a | e | ] st']; simpl in *; auto.
  eapply frame_trans; [exact Hc | apply Hk].
Qed.

Lemma preserves_get_this n : preserves (num := num) n get_this.
Proof. intros st. apply frame_refl. Qed.

Lemma preserves_out_of_fuel {A} n : preserves (num := num) n (@out_of_fuel num A).
Proof. intros st. apply frame_refl. Qed.

Lemma preserves_new_array n : preserves (num := num) n new_array.
Proof.
  intros st. unfold new_array; simpl. repeat split; simpl; auto.
  intros i a _ Hi. apply nth_error_snoc_old. exact Hi.
Qed.

Lemma preserves_array_append n arr x : n <= arr -> preserves (num := num) n (array_append arr x).
Proof.
  intros Hle st. unfold array_append.
  destruct (Array_prototype_append (global st)) as [f|]; [|apply frame_refl].
  destruct (nth_error (heap st) arr) as [a|]; [|apply frame_refl].
  repeat split; simpl; auto.
  intros i b Hi Hb. rewrite nth_error_list_update_other by lia. exact Hb.
Qed.

Lemma preserves_self_params_time_step n : preserves (num := num) n self_params_time_step.
Proof.
  intros st. unfold self_params_time_step.
  destruct (self_params (global st)); apply frame_refl.
Qed.

Lemma preserves_put_delta_rob n v : preserves (num := num) n (put_delta_rob v).
Proof.
  intros st. unfold put_delta_rob.
  destruct (delta_rob (global st)) eqn:E; [|apply frame_refl].
  repeat split; simpl; auto.
  unfold host_of; simpl. rewrite E. reflexivity.
Qed.

Lemma preserves_put_delta_ada n v : preserves (num := num) n (put_delta_ada v).
Proof.
  intros st. unfold put_delta_ada.
  destruct (delta_ada (global st)) eqn:E; [|apply frame_refl].
  repeat split; simpl; auto.
  unfold host_of; simpl. rewrite E. reflexivity.
Qed.

Lemma preserves_get_delta_rob n : preserves (num := num) n get_delta_rob.
Proof.
  intros st. unfold get_delta_rob.
  destruct (delta_rob (global st)); apply frame_refl.
Qed.

Lemma preserves_get_delta_ada n : preserves (num := num) n get_delta_ada.
Proof.
  intros st. unfold get_delta_ada.
  destruct (delta_ada (global st)); apply frame_refl.
Qed.

Lemma preserves_computeDrDt n rob ada : preserves (num := num) n (computeDrDt rob ada).
Proof. intros st. apply frame_refl. Qed.

Lemma preserves_computeDaDt n rob ada : preserves (num := num) n (computeDaDt rob ada).
Proof. intros st. apply frame_refl. Qed.

Create HintDb frame_db.
Hint Resolve preserves_ret preserves_get_this preserves_new_array
  preserves_array_append preserves_self_params_time_step
  preserves_put_delta_rob preserves_put_delta_ada preserves_get_delta_rob
  preserves_get_delta_ada preserves_computeDrDt preserves_computeDaDt
  preserves_out_of_fuel : frame_db.

Ltac frame_steps :=
  repeat (apply preserves_bind; [ auto with frame_db | intros ? ]);
  auto with frame_db.

Lemma preserves_loop_body n sol l :
  n <= solution_robustness sol -> n <= solution_adaptivity sol ->
  n <= solution_time sol ->
  preserves (num := num) n (loop_body sol l).
Proof.
  intros Hr Ha Ht. unfold loop_body. frame_steps.
Qed.

Lemma preserves_while_loop n sol fuel :
  n <= solution_robustness sol -> n <= solution_adaptivity sol ->
  n <= solution_time sol ->
  forall l, preserves (num := num) n (while_loop fuel sol l).
Proof.
  intros Hr Ha Ht. induction fuel as [|fuel IH]; intros l; simpl.
  - apply preserves_bind; [auto with frame_db|]. intros s.
    destruct (curr_time l <=? end_ (params s)); auto with frame_db.
  - apply preserves_bind; [auto with frame_db|]. intros s.
    destruct (curr_time l <=? end_ (params s)); auto with frame_db.
    apply preserves_bind; [apply preserves_loop_body; assumption|].
    intros l'. apply IH.
Qed.

Lemma solution_frame fuel (st : Store num) :
  frame (length (heap st)) st (snd (solution fuel st)).
Proof.
  set (n := length (heap st)).
  unfold solution, bind at 1 2 3 4, get_this, new_array. simpl.
  match goal with
  | |- frame _ _ (snd (bind (while_loop _ ?sol ?l) _ ?st0)) =>
      assert (Hw : preserves (num := num) n (bind (while_loop fuel sol l) (fun _ => ret sol)));
      [ | eapply frame_trans; [ | apply (Hw st0) ] ]
  end.
  - apply preserves_bind; [|auto with frame_db].
    apply preserves_while_loop; simpl; rewrite ?length_app; simpl; subst n; lia.
  - repeat split; simpl; auto.
    intros i a _ Hi. repeat apply nth_error_snoc_old. exact Hi.
Qed.

End StoreProperties.

Section Refinement.
Context {num : Type} `{Number num}.
Local Open Scope js_scope.

(** ** The getter computes [euler] *)

Lemma read_solution_inv (st : Store num) sol tr :
  read_solution st sol = Some tr ->
  nth_error (heap st) (solution_robustness sol) = Some (traj_robustness tr) /\
  nth_error (heap st) (solution_adaptivity sol) = Some (traj_adaptivity tr) /\
  nth_error (heap st) (solution_time sol) = Some (traj_time tr).
Proof.
  unfold read_solution.
  destruct (nth_error (heap st) (solution_robustness sol)); [|discriminate].
  destruct (nth_error (heap st) (solution_adaptivity sol)); [|discriminate].
  destruct (nth_error (heap st) (solution_time sol)); [|discriminate].
  intros [= <-]. simpl. auto.
Qed.

Lemma bind_normal {A B} (c : Js num A) (k : A -> Js num B) st a st' :
  c st = (Normal a, st') -> bind c k st = k a st'.
Proof. intros E. unfold bind. rewrite E. reflexivity. Qed.

Lemma array_append_some (st : Store num) f arr a x :
  Array_prototype_append (global st) = Some f ->
  nth_error (heap st) arr = Some a ->
  array_append arr x st
  = (Normal tt,
     {| this := this st; global := global st;
        heap := list_update (heap st) arr (f a x) |}).
Proof. intros Ef Ea. unfold array_append. rewrite Ef, Ea. reflexivity. Qed.

(** The three [append] calls of an iteration, when the page has [append]. *)
Lemma appends_spec sol l (st : Store num) tr f {A} (k : Js num A) :
  holds st sol tr ->
  Array_prototype_append (global st) = Some f ->
  exists hp',
    (array_append (solution_robustness sol) (curr_rob l) ;;
     array_append (solution_adaptivity sol) (curr_ada l) ;;
     array_append (solution_time sol) (curr_time l) ;;
     k) st
    = k {| this := this st; global := global st; heap := hp' |} /\
    forall g',
      holds {| this := this st; global := g'; heap := hp' |} sol
        {| traj_robustness := f (traj_robustness tr) (curr_rob l);
           traj_adaptivity := f (traj_adaptivity tr) (curr_ada l);
           traj_time := f (traj_time tr) (curr_time l) |}.
Proof.
  intros (Hra & Hrt & Hat & Hread) Ef.
  destruct (read_solution_inv _ _ Hread) as (Hr & Ha & Ht).
  eexists. split.
  - erewrite bind_normal by (apply array_append_some; eassumption).
    erewrite bind_normal
      by (apply array_append_some; simpl;
          [ eassumption
          | rewrite nth_error_list_update_other by assumption; eassumption ]).
    erewrite bind_normal
      by (apply array_append_some; simpl;
          [ eassumption
          | rewrite !nth_error_list_update_other by assumption; eassumption ]).
    simpl. reflexivity.
  - intros g'. repeat split; auto.
    unfold read_solution; simpl.
    rewrite (nth_error_list_update_other _ _ (j := solution_robustness sol)) by auto.
    rewrite (nth_error_list_update_other _ _ (j := solution_robustness sol)) by auto.
    rewrite (nth_error_list_update_same _ _ _ Hr).
    rewrite (nth_error_list_update_other _ _ (j := solution_adaptivity sol)) by auto.
    erewrite (nth_error_list_update_same _ (solution_adaptivity sol))
      by (rewrite nth_error_list_update_other by assumption; eassumption).
    erewrite (nth_error_list_update_same _ (solution_time sol))
      by (rewrite !nth_error_list_update_other by assumption; eassumption).
    reflexivity.
Qed.

(** One iteration of the loop ends as [step_outcome] says and leaves the
    arrays [step_traj] gives. *)
Lemma loop_body_spec sol l (st : Store num) tr :
  holds st sol tr ->
  exists st',
    loop_body sol l st = (step_outcome (host_of (global st)) (this st) l, st') /\
    holds st' sol (step_traj (host_of (global st)) l tr).
Proof.
  intros Hholds.
  destruct st as [s [ap sp dr da] hp].
  unfold step_outcome, step_traj, host_of; simpl.
  destruct ap as [f|].
  2:{ eexists. split; [|eassumption]. reflexivity. }
  unfold loop_body.
  destruct (appends_spec l
              (dr <- computeDrDt (curr_rob l) (curr_ada l) ;;
               ts_r <- self_params_time_step ;;
               put_delta_rob (dr * ts_r) ;;
               da <- computeDaDt (curr_rob l) (curr_ada l) ;;
               ts_a <- self_params_time_step ;;
               put_delta_ada (da * ts_a) ;;
               d_rob <- get_delta_rob ;;
               d_ada <- get_delta_ada ;;
               s <- get_this ;;
               ret {| curr_rob := curr_rob l + d_rob;
                      curr_ada := curr_ada l + d_ada;
                      curr_time := curr_time l + time_step (params s) |})
              Hholds eq_refl) as (hp' & -> & Hhp').
  simpl in Hhp'.
  unfold bind, computeDrDt, computeDaDt, get_this, ret, self_params_time_step,
    put_delta_rob, put_delta_ada, get_delta_rob, get_delta_ada; simpl.
  destruct sp as [sp|]; simpl; [|eexists; split; [reflexivity|apply Hhp']].
  destruct dr as [d1|]; simpl; [|eexists; split; [reflexivity|apply Hhp']].
  destruct da as [d2|]; simpl; eexists; (split; [reflexivity|apply Hhp']).
Qed.

(** The loop ends as [euler] says and leaves the arrays [euler] gives;
    the receiver and what the getter depends on in the global object are
    as before. *)
Lemma while_loop_spec fuel sol :
  forall l (st : Store num) tr,
    holds st sol tr ->
    exists st',
      while_loop fuel sol l st
      = (fst (euler fuel (host_of (global st)) (this st) l tr), st') /\
      holds st' sol (snd (euler fuel (host_of (global st)) (this st) l tr)) /\
      this st' = this st /\
      host_of (global st') = host_of (global st).
Proof.
  induction fuel as [|fuel IH]; intros l st tr Hholds; simpl;
    unfold bind at 1, get_this at 1; simpl;
    destruct (curr_time l <=? end_ (params (this st)));
    try (exists st; simpl; auto; fail).
  destruct (loop_body_spec l Hholds) as (st1 & Ebody & Hholds1).
  assert (Hframe : frame 0 st st1).
  { replace st1 with (snd (loop_body sol l st)) by (rewrite Ebody; reflexivity).
    apply preserves_loop_body; lia. }
  destruct Hframe as (Hthis & Hhost & _).
  unfold bind. rewrite Ebody.
  destruct (step_outcome (host_of (global st)) (this st) l) as [l' | e | ]; simpl;
    try (exists st1; auto; fail).
  destruct (IH l' st1 _ Hholds1) as (st2 & Eloop & Hholds2 & Hthis2 & Hhost2).
  rewrite Hthis, Hhost in *.
  exists st2. rewrite Eloop. auto.
Qed.

(** What a caller observes of the getter is [euler_result], a function of
    the receiver and of the part of the global object in [host_of]. *)
Lemma solution_spec fuel (st : Store num) :
  observe (solution fuel st) = euler_result fuel (host_of (global st)) (this st).
Proof.
  unfold solution, bind at 1 2 3 4, get_this, new_array; simpl.
  match goal with
  | |- observe (bind (while_loop _ ?sol ?l) _ ?st0) = _ =>
      assert (Hholds : holds st0 sol empty_trajectory)
  end.
  { split; [|split; [|split]]; simpl;
      try (rewrite ?length_app; simpl; lia).
    unfold read_solution; simpl.
    assert (E1 : nth_error (((heap st ++ [[]]) ++ [[]]) ++ [[]]) (length (heap st))
                 = Some (@nil num))
      by apply nth_error_snoc_old, nth_error_snoc_old, nth_error_snoc_new.
    assert (E2 : nth_error (((heap st ++ [[]]) ++ [[]]) ++ [[]]) (length (heap st ++ [[]]))
                 = Some (@nil num))
      by apply nth_error_snoc_old, nth_error_snoc_new.
    rewrite E1, E2, nth_error_snoc_new. reflexivity. }
  destruct (while_loop_spec fuel (initial_locals (this st)) Hholds)
    as (st' & Eloop & Hholds' & _ & _).
  unfold initial_locals in Eloop, Hholds'. simpl in Eloop, Hholds'.
  unfold bind. rewrite Eloop. unfold euler_result, initial_locals.
  destruct (euler fuel (host_of (global st)) (this st) _ empty_trajectory)
    as [[l' | e | ] tr]; simpl in *; try reflexivity.
  unfold observe; simpl. destruct Hholds' as (_ & _ & _ & ->). reflexivity.
Qed.

(** The receiver and what the getter depends on in the global object are
    the same after the getter. *)
Lemma solution_keeps_host fuel (st : Store num) :
  this (snd (solution fuel st)) = this st /\
  host_of (global (snd (solution fuel st))) = host_of (global st).
Proof.
  destruct (solution_frame fuel st) as (Hthis & Hhost & _). auto.
Qed.

End Refinement.

Section GetterProperties.
Context {num : Type} `{Number num}.
Local Open Scope js_scope.

(** ** Runs that never enter the loop, runs that enter it *)

Lemma euler_result_guard_false fuel h (s : Solver num) :
  (time (initial_values s) <=? end_ (params s)) = false ->
  euler_result fuel h s = Normal (Some empty_trajectory).
Proof.
  intros Hguard. unfold euler_result.
  destruct fuel; simpl; rewrite Hguard; reflexivity.
Qed.

Lemma step_outcome_no_append h (s : Solver num) l :
  host_append h = None -> step_outcome h s l = Throw TypeError.
Proof. intros E. unfold step_outcome. rewrite E. reflexivity. Qed.

(** Without [append] on arrays the first iteration throws. *)
Lemma euler_result_no_append fuel h (s : Solver num) :
  host_append h = None ->
  (time (initial_values s) <=? end_ (params s)) = true ->
  euler_result (S fuel) h s = Throw TypeError.
Proof.
  intros Happ Hguard. unfold euler_result. simpl. rewrite Hguard.
  rewrite step_outcome_no_append by assumption. reflexivity.
Qed.

Lemma step_outcome_not_out_of_fuel h (s : Solver num) l :
  step_outcome h s l <> OutOfFuel.
Proof.
  unfold step_outcome.
  destruct (host_append h); [|discriminate].
  destruct (host_self_params h); [|discriminate].
  destruct (host_delta_rob h); [|discriminate].
  destruct (host_delta_ada h); discriminate.
Qed.

Lemma step_outcome_time h (s : Solver num) l l' :
  step_outcome h s l = Normal l' ->
  curr_time l' = curr_time l + time_step (params s).
Proof.
  unfold step_outcome.
  destruct (host_append h); [|discriminate].
  destruct (host_self_params h); [|discriminate].
  destruct (host_delta_rob h); [|discriminate].
  destruct (host_delta_ada h); [|discriminate].
  intros [= <-]. reflexivity.
Qed.

Lemma completes_within_euler n (st : Store num) :
  completes_within n st <->
  fst (euler n (host_of (global st)) (this st) (initial_locals (this st)) empty_trajectory)
  <> OutOfFuel.
Proof.
  unfold completes_within.
  pose proof (solution_spec n st) as Hspec.
  unfold observe, euler_result in Hspec.
  destruct (euler n (host_of (global st)) (this st) (initial_locals (this st))
              empty_trajectory) as [[l | e | ] tr];
    destruct (fst (solution n st)); simpl; split; congruence.
Qed.

Lemma firstn_of_frame (hp hp' : list (list num)) :
  (forall i a, i < length hp -> nth_error hp i = Some a -> nth_error hp' i = Some a) ->
  firstn (length hp) hp' = hp.
Proof.
  revert hp'. induction hp as [|a hp IH]; intros hp' Hframe; simpl.
  - reflexivity.
  - destruct hp' as [|a' hp'].
    + specialize (Hframe 0 a (Nat.lt_0_succ _) eq_refl). discriminate.
    + pose proof (Hframe 0 a (Nat.lt_0_succ _) eq_refl) as H0.
      simpl in H0. injection H0 as ->. f_equal. apply IH.
      intros i b Hi Hb. apply (Hframe (S i) b); simpl; auto. lia.
Qed.

(** On a page without [append] on arrays, a run started at or before [end]
    throws a TypeError in its first iteration. *)
Lemma unbound_append_throws fuel (st : Store num) :
  Array_prototype_append (global st) = None ->
  (time (initial_values (this st)) <=? end_ (params (this st))) = true ->
  observe (solution (S fuel) st) = Throw TypeError.
Proof.
  intros Happ Hguard. rewrite solution_spec.
  apply euler_result_no_append; assumption.
Qed.

(** On such a page one iteration is all the getter ever starts. *)
Lemma unbound_append_completes_within_one fuel (st : Store num) :
  Array_prototype_append (global st) = None ->
  completes_within (S fuel) st.
Proof.
  intros Happ. apply completes_within_euler. cbn [euler].
  destruct (curr_time (initial_locals (this st)) <=? end_ (params (this st)));
    [|simpl; discriminate].
  rewrite step_outcome_no_append by assumption. simpl. discriminate.
Qed.

(** ** The claims that hold on every page *)

(** C1 (as amended): the getter holds no check of [time_step].  Whatever
    [time_step] is (zero, negative and NaN included), when the initial time
    is not [<=] [end] the getter returns three empty arrays and throws
    nothing; the only errors it can throw at all are the TypeError and the
    ReferenceError of its unbound names. *)
Theorem solution_has_no_time_step_check fuel (st : Store num) :
  (time (initial_values (this st)) <=? end_ (params (this st))) = false ->
  observe (solution fuel st) = Normal (Some empty_trajectory).
Proof.
  intros Hguard. rewrite solution_spec.
  apply euler_result_guard_false. exact Hguard.
Qed.

(** C8: what a caller observes of the getter is a function of the stored
    parameters and initial values (and of the page's bindings), so a
    second invocation right after the first returns the same three
    sequences or throws the same error. *)
Theorem solution_is_deterministic fuel (st : Store num) :
  observe (solution fuel st) = euler_result fuel (host_of (global st)) (this st) /\
  observe (solution fuel (snd (solution fuel st))) = observe (solution fuel st).
Proof.
  split; [apply solution_spec|].
  rewrite !solution_spec.
  destruct (solution_keeps_host fuel st) as (-> & ->). reflexivity.
Qed.

(** C9: the getter leaves the stored parameters and initial values as they
    were, leaves every array that existed before the call as it was, and a
    later invocation does not touch the arrays an earlier one returned. *)
Theorem solution_has_no_side_effect fuel fuel' (st : Store num) :
  this (snd (solution fuel st)) = this st /\
  firstn (length (heap st)) (heap (snd (solution fuel st))) = heap st /\
  observe (fst (solution fuel st), snd (solution fuel' (snd (solution fuel st))))
  = observe (solution fuel st).
Proof.
  destruct (solution_frame fuel st) as (Hthis & _ & Hheap).
  split; [exact Hthis|]. split; [apply firstn_of_frame; exact Hheap|].
  pose proof (solution_spec fuel st) as Hspec.
  destruct (solution_frame fuel' (snd (solution fuel st))) as (_ & _ & Hlater).
  unfold observe in *. simpl in *.
  destruct (fst (solution fuel st)) as [sol | e | ]; try reflexivity.
  f_equal.
  destruct (read_solution (snd (solution fuel st)) sol) as [tr|] eqn:Eread.
  - destruct (read_solution_inv _ _ Eread) as (Hr & Ha & Ht).
    assert (Hkept : forall i a,
               nth_error (heap (snd (solution fuel st))) i = Some a ->
               nth_error (heap (snd (solution fuel' (snd (solution fuel st))))) i = Some a).
    { intros i a Hi. apply Hlater; [|exact Hi].
      apply nth_error_Some. congruence. }
    unfold read_solution.
    rewrite (Hkept _ _ Hr), (Hkept _ _ Ha), (Hkept _ _ Ht).
    destruct tr; reflexivity.
  - unfold euler_result in Hspec.
    destruct (euler fuel _ _ _ _) as [[l | e | ] tr]; discriminate.
Qed.

End GetterProperties.

(** ** Pages that bind the names *)

Section BoundNames.
Context {num : Type} `{Number num}.
Local Open Scope js_scope.

Lemma supplying_global_binds_names (p : Params num) d :
  binds_names (supplying_global p d) p.
Proof. reflexivity. Qed.

Lemma step_outcome_supplying (s : Solver num) l :
  step_outcome (supplying_host (params s)) s l = Normal (euler_step (params s) l).
Proof. reflexivity. Qed.

Lemma extend_nil (tr : Trajectory num) : extend tr [] = tr.
Proof.
  destruct tr. unfold extend. simpl. rewrite !app_nil_r. reflexivity.
Qed.

Lemma extend_step (p : Params num) (tr : Trajectory num) l ls :
  extend (step_traj (supplying_host p) l tr) ls = extend tr (l :: ls).
Proof.
  unfold extend, step_traj. simpl. rewrite <- !app_assoc. reflexivity.
Qed.

(** On such a page the loop never throws, and the arrays it leaves are the
    locals it went through. *)
Lemma euler_supplying fuel :
  forall (s : Solver num) l tr,
    snd (euler fuel (supplying_host (params s)) s l tr)
    = extend tr (visited fuel (params s) l) /\
    forall e, fst (euler fuel (supplying_host (params s)) s l tr) <> Throw e.
Proof.
  induction fuel as [|fuel IH]; intros s l tr; cbn [euler visited];
    destruct (curr_time l <=? end_ (params s)); cbn [fst snd];
    try (rewrite extend_nil; split; [reflexivity | discriminate]).
  rewrite step_outcome_supplying.
  destruct (IH s (euler_step (params s) l) (step_traj (supplying_host (params s)) l tr))
    as (Htraj & Hok).
  split; [|exact Hok].
  rewrite Htraj. apply extend_step.
Qed.

Lemma bound_names_run fuel (st : Store num) :
  binds_names (global st) (params (this st)) ->
  observe (solution fuel st) = OutOfFuel \/
  observe (solution fuel st)
  = Normal (Some (extend empty_trajectory
                    (visited fuel (params (this st)) (initial_locals (this st))))).
Proof.
  intros Hbinds. rewrite solution_spec. unfold binds_names in Hbinds.
  rewrite Hbinds. unfold euler_result.
  destruct (euler_supplying fuel (this st) (initial_locals (this st)) empty_trajectory)
    as (Htraj & Hok).
  destruct (euler fuel (supplying_host (params (this st))) (this st)
              (initial_locals (this st)) empty_trajectory) as [[l | e | ] tr];
    simpl in *.
  - right. rewrite Htraj. reflexivity.
  - exfalso. exact (Hok e eq_refl).
  - left. reflexivity.
Qed.

Lemma visited_head fuel (p : Params num) l l' :
  nth_error (visited fuel p l) 0 = Some l' -> l' = l.
Proof.
  destruct fuel; simpl; destruct (curr_time l <=? end_ p); simpl; congruence.
Qed.

Lemma visited_succ fuel :
  forall (p : Params num) l i l2,
    nth_error (visited fuel p l) (S i) = Some l2 ->
    exists l1, nth_error (visited fuel p l) i = Some l1 /\ l2 = euler_step p l1.
Proof.
  induction fuel as [|fuel IH]; intros p l i l2; simpl;
    destruct (curr_time l <=? end_ p); simpl; try discriminate.
  intros Hnext. destruct i as [|i].
  - exists l. split; [reflexivity|]. exact (visited_head _ _ _ Hnext).
  - destruct (IH _ _ _ _ Hnext) as (l1 & Hl1 & ->). exists l1. auto.
Qed.

Lemma visited_guard fuel :
  forall (p : Params num) l l',
    In l' (visited fuel p l) -> (curr_time l' <=? end_ p) = true.
Proof.
  induction fuel as [|fuel IH]; intros p l l'; simpl;
    destruct (curr_time l <=? end_ p) eqn:Hguard; simpl; try contradiction.
  intros [<- | Hin]; [exact Hguard | exact (IH _ _ _ Hin)].
Qed.

(** X8: once the names are bound, every returned trajectory is the
    simultaneous Euler update: each sample after the first is computed from the sample
    before it, both derivatives taken at that earlier sample. *)
Lemma bound_names_euler_update fuel (st : Store num) tr :
  binds_names (global st) (params (this st)) ->
  observe (solution fuel st) = Normal (Some tr) ->
  forall i r' a',
    nth_error (traj_robustness tr) (S i) = Some r' ->
    nth_error (traj_adaptivity tr) (S i) = Some a' ->
    exists r a,
      nth_error (traj_robustness tr) i = Some r /\
      nth_error (traj_adaptivity tr) i = Some a /\
      r' = r + dRdt (params (this st)) r a * time_step (params (this st)) /\
      a' = a + dAdt (params (this st)) r a * time_step (params (this st)).
Proof.
  intros Hbinds Hrun i r' a' Hr' Ha'.
  destruct (bound_names_run fuel st Hbinds) as [Hout | Hnormal]; [congruence|].
  rewrite Hnormal in Hrun. injection Hrun as Htr. subst tr.
  cbn [extend empty_trajectory traj_robustness traj_adaptivity app] in *.
  rewrite nth_error_map in Hr', Ha' |- *. rewrite nth_error_map.
  destruct (nth_error (visited fuel _ _) (S i)) as [l2|] eqn:Hl2; [|discriminate].
  destruct (visited_succ _ _ _ _ Hl2) as (l1 & Hl1 & ->).
  rewrite Hl1. simpl in *.
  exists (curr_rob l1), (curr_ada l1). repeat split; congruence.
Qed.

(** The three returned arrays have one length. *)
Lemma bound_names_equal_lengths fuel (st : Store num) tr :
  binds_names (global st) (params (this st)) ->
  observe (solution fuel st) = Normal (Some tr) ->
  length (traj_robustness tr) = length (traj_time tr) /\
  length (traj_adaptivity tr) = length (traj_time tr).
Proof.
  intros Hbinds Hrun.
  destruct (bound_names_run fuel st Hbinds) as [Hout | Hnormal]; [congruence|].
  rewrite Hnormal in Hrun. injection Hrun as Htr. subst tr. simpl.
  rewrite !length_map. auto.
Qed.

(** A run that returns has left the loop with its guard false, one Euler
    step after the last sample (or at the initial locals, with no sample). *)
Lemma euler_supplying_final fuel :
  forall (s : Solver num) l tr lf,
    fst (euler fuel (supplying_host (params s)) s l tr) = Normal lf ->
    (curr_time lf <=? end_ (params s)) = false /\
    ((visited fuel (params s) l = [] /\ lf = l) \/
     exists ls ll, visited fuel (params s) l = ls ++ [ll] /\ lf = euler_step (params s) ll).
Proof.
  induction fuel as [|fuel IH]; intros s l tr lf; cbn [euler visited];
    destruct (curr_time l <=? end_ (params s)) eqn:Hguard; cbn [fst];
    try discriminate;
    try (intros [= <-]; split; [exact Hguard | left; split; reflexivity]).
  rewrite step_outcome_supplying. intros Hfinal.
  destruct (IH _ _ _ _ Hfinal) as (Hexit & [(Hnone & ->) | (ls & ll & Hsome & ->)]).
  - split; [exact Hexit|]. right. exists [], l. rewrite Hnone. split; reflexivity.
  - split; [exact Hexit|]. right. exists (l :: ls), ll. rewrite Hsome. split; reflexivity.
Qed.

Lemma bound_names_run_normal fuel (st : Store num) tr :
  binds_names (global st) (params (this st)) ->
  observe (solution fuel st) = Normal (Some tr) ->
  tr = extend empty_trajectory (visited fuel (params (this st)) (initial_locals (this st))) /\
  exists lf,
    fst (euler fuel (supplying_host (params (this st))) (this st)
           (initial_locals (this st)) empty_trajectory) = Normal lf.
Proof.
  intros Hbinds Hrun.
  destruct (bound_names_run fuel st Hbinds) as [Hout | Hnormal]; [congruence|].
  split; [congruence|].
  rewrite solution_spec in Hrun. unfold binds_names in Hbinds. rewrite Hbinds in Hrun.
  unfold euler_result in Hrun.
  destruct (euler fuel (supplying_host (params (this st))) (this st)
              (initial_locals (this st)) empty_trajectory) as [[l | e | ] tr'];
    try discriminate.
  exists l. reflexivity.
Qed.

(** X10: once the names are bound, a run that returns and started at or
    before [end] returns the initial values as its first sample. *)
Lemma bound_names_first_sample fuel (st : Store num) tr :
  binds_names (global st) (params (this st)) ->
  observe (solution fuel st) = Normal (Some tr) ->
  (time (initial_values (this st)) <=? end_ (params (this st))) = true ->
  nth_error (traj_robustness tr) 0 = Some (robustness (initial_values (this st))) /\
  nth_error (traj_adaptivity tr) 0 = Some (adaptivity (initial_values (this st))) /\
  nth_error (traj_time tr) 0 = Some (time (initial_values (this st))).
Proof.
  intros Hbinds Hrun Hguard.
  destruct (bound_names_run_normal fuel st Hbinds Hrun) as (-> & lf & Hlf).
  destruct fuel as [|fuel]; cbn [euler visited] in *;
    unfold initial_locals in *; cbn [curr_time] in *; rewrite Hguard in *.
  - discriminate.
  - repeat split.
Qed.

End BoundNames.

(** ** On JavaScript numbers *)

Section FloatRuns.
Local Open Scope float_scope.
Import Scenario.

(** C1 as stated fails: with [time_step = 0] and with [time_step = -1],
    started after [end], the getter throws nothing and returns its three
    (empty) arrays. *)
Lemma nonpositive_step_is_not_rejected :
  (time_step (params zero_step) <=? 0) = true /\
  (time_step (params negative_step) <=? 0) = true /\
  (forall fuel, observe (solution fuel (initial_store zero_step standard_global))
                = Normal (Some empty_trajectory)) /\
  (forall fuel, observe (solution fuel (initial_store negative_step standard_global))
                = Normal (Some empty_trajectory)).
Proof.
  split; [reflexivity|]. split; [reflexivity|].
  split; intros fuel; rewrite solution_spec; apply euler_result_guard_false;
    reflexivity.
Qed.

(** The amended C1 at [time_step = 0]. *)
Lemma solution_has_no_time_step_check_witness :
  observe (solution 5 (initial_store zero_step standard_global))
  = Normal (Some empty_trajectory).
Proof.
  apply (solution_has_no_time_step_check 5 (initial_store zero_step standard_global)).
  reflexivity.
Defined.

(** C2 at the run the specification works out by hand: no Euler step is
    ever taken.  On a page with nothing but the standard globals the first
    [append] throws; with [append] supplied, [self.params.time_step]
    throws; with [self.params] supplied as well, the assignment to the
    undeclared [delta_rob] throws. *)
Theorem euler_step_is_not_reached :
  (forall fuel, observe (solution (S fuel) (initial_store constant_drive standard_global))
                = Throw TypeError) /\
  (forall fuel, observe (solution (S fuel) (initial_store constant_drive append_only_global))
                = Throw TypeError) /\
  (forall fuel,
      observe (solution (S fuel)
                 (initial_store constant_drive (undeclared_delta_global (params constant_drive))))
      = Throw ReferenceError).
Proof.
  split; [|split]; intros fuel; rewrite solution_spec; reflexivity.
Qed.

(** C4 at a run with initial time [0 <= end = 2]: the getter throws at the
    first [append] and returns no sequences at all, so none that are
    non-empty. *)
Theorem started_run_returns_no_sequences :
  (time (initial_values constant_drive) <=? end_ (params constant_drive)) = true /\
  forall fuel, observe (solution (S fuel) (initial_store constant_drive standard_global))
               = Throw TypeError.
Proof.
  split; [reflexivity|]. intros fuel. rewrite solution_spec. reflexivity.
Qed.

(** C5 at [end] equal to the initial time: the getter throws instead of
    returning the one sample; at [end] before the initial time it returns
    the three empty arrays. *)
Theorem end_at_start_throws :
  (forall fuel, observe (solution (S fuel) (initial_store end_at_start standard_global))
                = Throw TypeError) /\
  (forall fuel, observe (solution fuel (initial_store end_before_start standard_global))
                = Normal (Some empty_trajectory)).
Proof.
  split; intros fuel; rewrite solution_spec; [reflexivity|].
  apply euler_result_guard_false. reflexivity.
Qed.

(** C7 at an initial state where both derivatives are [0]: the getter
    throws at the first [append] instead of returning the constant
    trajectory. *)
Theorem equilibrium_run_throws :
  dRdt (params equilibrium) 1 1 = 0 /\
  dAdt (params equilibrium) 1 1 = 0 /\
  forall fuel, observe (solution (S fuel) (initial_store equilibrium standard_global))
               = Throw TypeError.
Proof.
  split; [reflexivity|]. split; [reflexivity|].
  intros fuel. rewrite solution_spec. reflexivity.
Qed.

(** C10 at [time_step = NaN], initial time [0 <= end = 2]: the getter does
    not return a single sample, it throws at the first [append]. *)
Theorem nan_step_run_throws :
  forall fuel, observe (solution (S fuel) (initial_store nan_step standard_global))
               = Throw TypeError.
Proof.
  intros fuel. rewrite solution_spec. reflexivity.
Qed.


(** *** What the same runs give once the names are bound *)

(** The specification's worked run: [[0, 0.5, 1]], [[0, 0.5, 1]], [[0, 1, 2]]. *)
Lemma constant_drive_with_names_bound :
  observe (solution 3 (initial_store constant_drive
                         (supplying_global (params constant_drive) 0)))
  = Normal (Some {| traj_robustness := [0; 0.5; 1];
                    traj_adaptivity := [0; 0.5; 1];
                    traj_time := [0; 1; 2] |}).
Proof. rewrite solution_spec. reflexivity. Qed.

Lemma end_at_start_with_names_bound :
  observe (solution 1 (initial_store end_at_start
                         (supplying_global (params end_at_start) 0)))
  = Normal (Some {| traj_robustness := [3]; traj_adaptivity := [4]; traj_time := [0] |}).
Proof. rewrite solution_spec. reflexivity. Qed.

Lemma equilibrium_with_names_bound :
  observe (solution 3 (initial_store equilibrium
                         (supplying_global (params equilibrium) 0)))
  = Normal (Some {| traj_robustness := [1; 1; 1];
                    traj_adaptivity := [1; 1; 1];
                    traj_time := [0; 1; 2] |}).
Proof. rewrite solution_spec. reflexivity. Qed.

Lemma nan_step_with_names_bound :
  observe (solution 1 (initial_store nan_step (supplying_global (params nan_step) 0)))
  = Normal (Some {| traj_robustness := [0]; traj_adaptivity := [0]; traj_time := [0] |}).
Proof. rewrite solution_spec. reflexivity. Qed.

(** A run in a store that already holds an array: the old array stays
    first and as it was, the three new ones follow it. *)
Lemma old_array_is_kept :
  heap (snd (solution 3 with_old_array))
  = [[7; 8]; [0; 0.5; 1]; [0; 0.5; 1]; [0; 1; 2]] /\
  fst (solution 3 with_old_array)
  = Normal {| solution_robustness := 1; solution_adaptivity := 2; solution_time := 3 |}.
Proof. split; reflexivity. Qed.

Lemma add_nan_r x : x + nan = nan.
Proof.
  apply Prim2SF_inj. rewrite add_spec.
  change (Prim2SF nan) with S754_nan.
  destruct (Prim2SF x); reflexivity.
Qed.

Lemma leb_nan_l y : (nan <=? y) = false.
Proof.
  rewrite leb_spec. change (Prim2SF nan) with S754_nan. reflexivity.
Qed.

(** X17: with the names bound and [time_step] NaN, a run started at or
    before [end] returns the initial sample alone: the advanced time is NaN and the
    guard is false on it. *)
Lemma bound_names_nan_step fuel (st : Store float) :
  binds_names (global st) (params (this st)) ->
  time_step (params (this st)) = nan ->
  (time (initial_values (this st)) <=? end_ (params (this st))) = true ->
  observe (solution (S fuel) st)
  = Normal (Some {| traj_robustness := [robustness (initial_values (this st))];
                    traj_adaptivity := [adaptivity (initial_values (this st))];
                    traj_time := [time (initial_values (this st))] |}).
Proof.
  intros Hbinds Hnan Hguard.
  rewrite solution_spec. unfold binds_names in Hbinds. rewrite Hbinds.
  unfold euler_result. cbn [euler]. unfold initial_locals at 1.
  cbn [curr_time num_leb float_Number]. rewrite Hguard.
  rewrite step_outcome_supplying.
  destruct fuel; cbn [euler euler_step curr_time initial_locals num_leb num_add float_Number];
    rewrite Hnan, add_nan_r, leb_nan_l; reflexivity.
Qed.

(** A positive step can be absorbed: from time [2^53] with [time_step = 1]
    the advanced time is [2^53] again, and the loop does not end. *)
Lemma euler_absorbed_step fuel :
  forall l tr,
    curr_time l = 9007199254740992 ->
    fst (euler fuel (supplying_host (params absorbed_step)) absorbed_step l tr) = OutOfFuel.
Proof.
  induction fuel as [|fuel IH]; intros l tr Htime; cbn [euler];
    cbn [num_leb float_Number]; rewrite Htime;
    change (9007199254740992 <=? end_ (params absorbed_step)) with true;
    cbn iota; [reflexivity|].
  rewrite step_outcome_supplying. apply IH.
  cbn [euler_step curr_time num_add float_Number]. rewrite Htime. reflexivity.
Qed.

(** C6 as stated fails on JavaScript numbers: with [time_step = 1 > 0],
    started at [2^53] before [end = 2^54] on a page that binds the names,
    the advanced time is [2^53] again and no budget of iterations lets the
    getter finish. *)
Lemma absorbed_step_never_completes :
  (0 <? time_step (params absorbed_step)) = true /\
  forall fuel,
    observe (solution fuel (initial_store absorbed_step
                              (supplying_global (params absorbed_step) 0)))
    = OutOfFuel.
Proof.
  split; [reflexivity|]. intros fuel. rewrite solution_spec.
  unfold euler_result.
  pose proof (euler_absorbed_step fuel (initial_locals absorbed_step) empty_trajectory
                eq_refl) as Hout.
  change (host_of (global (initial_store absorbed_step
                             (supplying_global (params absorbed_step) 0))))
    with (supplying_host (params absorbed_step)).
  change (this (initial_store absorbed_step (supplying_global (params absorbed_step) 0)))
    with absorbed_step.
  destruct (euler fuel (supplying_host (params absorbed_step)) absorbed_step
              (initial_locals absorbed_step) empty_trajectory) as [[l | e | ] tr];
    simpl in Hout; congruence.
Qed.

End FloatRuns.

(** * Further properties of the getter *)

Section MoreGetterProperties.
Context {num : Type} `{Number num}.
Local Open Scope js_scope.

Lemma step_outcome_throw_iff h (s : Solver num) l :
  (exists e, step_outcome h s l = Throw e) <->
  (host_append h = None \/ host_self_params h = None \/
   host_delta_rob h = false \/ host_delta_ada h = false).
Proof.
  unfold step_outcome.
  destruct (host_append h); [|split; eauto].
  destruct (host_self_params h); [|split; eauto].
  destruct (host_delta_rob h); [|split; eauto].
  destruct (host_delta_ada h); [|split; eauto].
  split; [intros (e & He); discriminate|].
  intros [Hx | [Hx | [Hx | Hx]]]; discriminate.
Qed.

Lemma step_outcome_normal_everywhere h (s : Solver num) l l' l2 :
  step_outcome h s l = Normal l' -> exists l2', step_outcome h s l2 = Normal l2'.
Proof.
  unfold step_outcome.
  destruct (host_append h); [|discriminate].
  destruct (host_self_params h); [|discriminate].
  destruct (host_delta_rob h); [|discriminate].
  destruct (host_delta_ada h); [|discriminate].
  intros _. eauto.
Qed.

Lemma euler_never_throws fuel :
  forall h (s : Solver num) l tr,
    (forall l2, exists l2', step_outcome h s l2 = Normal l2') ->
    forall e, fst (euler fuel h s l tr) <> Throw e.
Proof.
  induction fuel as [|fuel IH]; intros h s l tr Hok e; cbn [euler];
    destruct (curr_time l <=? end_ (params s)); cbn [fst]; try discriminate.
  destruct (Hok l) as (l' & ->). apply IH. exact Hok.
Qed.

Lemma euler_throws_in_first_iteration fuel h (s : Solver num) l tr e :
  fst (euler (S fuel) h s l tr) = Throw e <->
  (curr_time l <=? end_ (params s)) = true /\ step_outcome h s l = Throw e.
Proof.
  cbn [euler]. destruct (curr_time l <=? end_ (params s)); cbn [fst].
  2:{ split; [discriminate | intros (Hx & _); discriminate]. }
  destruct (step_outcome h s l) as [l' | e' | ] eqn:Hout; cbn [fst].
  - split; [|intros (_ & Hx); discriminate].
    intros Hthrow. exfalso. revert Hthrow. apply euler_never_throws.
    intros l2. exact (step_outcome_normal_everywhere _ _ _ l2 Hout).
  - split; [intros [= ->]; auto | intros (_ & [= ->]); reflexivity].
  - exfalso. exact (step_outcome_not_out_of_fuel _ _ _ Hout).
Qed.

Lemma observe_throw_euler fuel (st : Store num) e :
  observe (solution fuel st) = Throw e <->
  fst (euler fuel (host_of (global st)) (this st) (initial_locals (this st))
         empty_trajectory) = Throw e.
Proof.
  rewrite solution_spec. unfold euler_result.
  destruct (euler fuel (host_of (global st)) (this st) (initial_locals (this st))
              empty_trajectory) as [[l | e' | ] tr]; cbn [fst];
    split; congruence.
Qed.

Lemma all_bound_host (g : Global num) :
  all_bound g <->
  ~ (host_append (host_of g) = None \/ host_self_params (host_of g) = None \/
     host_delta_rob (host_of g) = false \/ host_delta_ada (host_of g) = false).
Proof.
  unfold all_bound, host_of; simpl.
  destruct (Array_prototype_append g), (self_params g), (delta_rob g), (delta_ada g);
    simpl; split; intros Hx;
    try (intros [Hy | [Hy | [Hy | Hy]]]; discriminate);
    try (repeat split; discriminate);
    try (exfalso; apply Hx; auto; fail);
    try (destruct Hx as (H1 & H2 & H3 & H4); congruence).
Qed.

(** X1: the getter throws exactly when it enters its loop on a page that
    leaves one of [append], [self.params], [delta_rob], [delta_ada]
    unbound; a run that gets through its first iteration throws in no later
    one. *)
Theorem solution_throws_iff_a_name_is_unbound fuel (st : Store num) :
  (exists e, observe (solution (S fuel) st) = Throw e) <->
  (time (initial_values (this st)) <=? end_ (params (this st))) = true /\
  ~ all_bound (global st).
Proof.
  rewrite all_bound_host.
  split.
  - intros (e & He). apply observe_throw_euler in He.
    apply euler_throws_in_first_iteration in He. destruct He as (Hguard & Hout).
    split; [exact Hguard|]. intros Hnot. apply Hnot.
    apply (step_outcome_throw_iff (host_of (global st)) (this st)
             (initial_locals (this st))). eauto.
  - intros (Hguard & Hnot).
    assert (Hthrow : exists e, step_outcome (host_of (global st)) (this st)
                                 (initial_locals (this st)) = Throw e).
    { apply step_outcome_throw_iff.
      destruct (host_append (host_of (global st))); [|auto].
      destruct (host_self_params (host_of (global st))); [|auto].
      destruct (host_delta_rob (host_of (global st))); [|auto].
      destruct (host_delta_ada (host_of (global st))); [|auto].
      exfalso. apply Hnot. intros [Hx | [Hx | [Hx | Hx]]]; discriminate. }
    destruct Hthrow as (e & He). exists e.
    apply observe_throw_euler. apply euler_throws_in_first_iteration. auto.
Qed.

(** X2: which error a run that enters the loop throws is decided by the
    first unbound name in the order the loop body meets them: TypeError for
    [append], TypeError for [self.params], ReferenceError for [delta_rob],
    ReferenceError for [delta_ada]. *)
Theorem first_unbound_name_decides_the_error fuel (st : Store num) :
  (time (initial_values (this st)) <=? end_ (params (this st))) = true ->
  (Array_prototype_append (global st) = None ->
   observe (solution (S fuel) st) = Throw TypeError) /\
  (Array_prototype_append (global st) <> None ->
   self_params (global st) = None ->
   observe (solution (S fuel) st) = Throw TypeError) /\
  (Array_prototype_append (global st) <> None ->
   self_params (global st) <> None ->
   delta_rob (global st) = None ->
   observe (solution (S fuel) st) = Throw ReferenceError) /\
  (Array_prototype_append (global st) <> None ->
   self_params (global st) <> None ->
   delta_rob (global st) <> None ->
   delta_ada (global st) = None ->
   observe (solution (S fuel) st) = Throw ReferenceError).
Proof.
  intros Hguard.
  assert (Hgen : forall e,
             step_outcome (host_of (global st)) (this st) (initial_locals (this st))
             = Throw e ->
             observe (solution (S fuel) st) = Throw e).
  { intros e He. apply observe_throw_euler. apply euler_throws_in_first_iteration. auto. }
  unfold step_outcome, host_of in Hgen; simpl in Hgen.
  destruct (Array_prototype_append (global st)), (self_params (global st)),
    (delta_rob (global st)), (delta_ada (global st)); simpl in Hgen;
    repeat split; intros; try congruence; apply Hgen; reflexivity.
Qed.

End MoreGetterProperties.

Lemma list_update_length {A} (l : list A) i x : length (list_update l i x) = length l.
Proof.
  revert i; induction l as [|h t IH]; intros [|j]; simpl; auto.
Qed.

Section Allocation.
Context {num : Type} `{Number num}.
Local Open Scope js_scope.

Lemma keeps_heap_length_bind {A B} (c : Js num A) (k : A -> Js num B) :
  keeps_heap_length c -> (forall a, keeps_heap_length (k a)) ->
  keeps_heap_length (bind c k).
Proof.
  intros Hc Hk st. unfold bind. specialize (Hc st).
  destruct (c st) as [[a | e | ] st']; simpl in *; auto.
  rewrite Hk. exact Hc.
Qed.

Lemma keeps_heap_length_array_append arr x :
  keeps_heap_length (num := num) (array_append arr x).
Proof.
  intros st. unfold array_append.
  destruct (Array_prototype_append (global st)); [|reflexivity].
  destruct (nth_error (heap st) arr); [|reflexivity].
  simpl. apply list_update_length.
Qed.

Lemma keeps_heap_length_loop_body sol l :
  keeps_heap_length (num := num) (loop_body sol l).
Proof.
  unfold loop_body.
  repeat (apply keeps_heap_length_bind;
          [ first [ apply keeps_heap_length_array_append
                  | intros st; unfold computeDrDt, computeDaDt, bind, get_this, ret,
                      self_params_time_step, put_delta_rob, put_delta_ada,
                      get_delta_rob, get_delta_ada; simpl;
                    repeat match goal with
                           | |- context [match ?o with _ => _ end] => destruct o
                           end; reflexivity ]
          | intros ? ]).
  intros st. reflexivity.
Qed.

Lemma keeps_heap_length_while_loop fuel sol :
  forall l, keeps_heap_length (num := num) (while_loop fuel sol l).
Proof.
  induction fuel as [|fuel IH]; intros l; simpl;
    (apply keeps_heap_length_bind; [intros st; reflexivity|]); intros s;
    destruct (curr_time l <=? end_ (params s)); try (intros st; reflexivity).
  apply keeps_heap_length_bind; [apply keeps_heap_length_loop_body | apply IH].
Qed.

(** X3: every invocation of the getter allocates exactly three arrays,
    whether it returns or throws, and what it returns refers to those
    three: two invocations never return the same array. *)
Theorem solution_allocates_three_fresh_arrays fuel (st : Store num) :
  length (heap (snd (solution fuel st))) = (length (heap st) + 3)%nat /\
  (fst (solution fuel st)
   = Normal {| solution_robustness := length (heap st);
               solution_adaptivity := (length (heap st) + 1)%nat;
               solution_time := (length (heap st) + 2)%nat |} \/
   fst (solution fuel st) = OutOfFuel \/
   exists e, fst (solution fuel st) = Throw e).
Proof.
  unfold solution, bind, get_this, new_array; simpl.
  match goal with
  | |- context [while_loop fuel ?sol ?l ?st0] =>
      pose proof (keeps_heap_length_while_loop fuel sol l st0) as Hlen;
      destruct (while_loop fuel sol l st0) as [[l' | e | ] st']
  end; simpl in *; rewrite Hlen, !length_app; simpl; split; try lia.
  - left. do 2 f_equal; lia.
  - right. right. eauto.
  - right. left. reflexivity.
Qed.

(** X4: the getter leaves [Array.prototype.append] and [self.params] as it
    found them, and creates neither [delta_rob] nor [delta_ada] where the
    page has not declared it; a run that never enters the loop leaves the
    whole global object as it was. *)
Theorem solution_keeps_the_global_bindings fuel (st : Store num) :
  Array_prototype_append (global (snd (solution fuel st)))
  = Array_prototype_append (global st) /\
  self_params (global (snd (solution fuel st))) = self_params (global st) /\
  (delta_rob (global (snd (solution fuel st))) = None <-> delta_rob (global st) = None) /\
  (delta_ada (global (snd (solution fuel st))) = None <-> delta_ada (global st) = None) /\
  ((time (initial_values (this st)) <=? end_ (params (this st))) = false ->
   global (snd (solution fuel st)) = global st).
Proof.
  destruct (solution_frame fuel st) as (_ & Hhost & _).
  unfold host_of in Hhost. injection Hhost as Happ Hself Hrob Hada.
  repeat split; auto.
  - intros Hx. rewrite Hx in Hrob. destruct (delta_rob (global st)); [discriminate|auto].
  - intros Hx. rewrite Hx in Hrob.
    destruct (delta_rob (global (snd (solution fuel st)))); [discriminate|auto].
  - intros Hx. rewrite Hx in Hada. destruct (delta_ada (global st)); [discriminate|auto].
  - intros Hx. rewrite Hx in Hada.
    destruct (delta_ada (global (snd (solution fuel st)))); [discriminate|auto].
  - intros Hguard. unfold solution, bind at 1 2 3 4, get_this, new_array; simpl.
    destruct fuel; simpl; unfold bind at 1 2, get_this; simpl; rewrite Hguard;
      reflexivity.
Qed.

End Allocation.

Section FreshReads.
Context {num : Type} `{Number num}.
Local Open Scope js_scope.

(** X6: the getter reads [this.params] and [this.initial_values] anew on
    every invocation and keeps nothing of an earlier one: after any run, a
    solver whose stored values were replaced returns what it would have
    returned without that run. *)
Theorem solution_keeps_nothing_of_an_earlier_run fuel fuel' (st : Store num)
    (p : Params num) (iv : InitialValues num) :
  observe (solution fuel' (with_this (constructor p iv) (snd (solution fuel st))))
  = observe (solution fuel' (with_this (constructor p iv) st)).
Proof.
  rewrite !solution_spec. unfold with_this; simpl.
  destruct (solution_keeps_host fuel st) as (_ & ->). reflexivity.
Qed.

End FreshReads.

Section GlobalWrites.
Context {num : Type} `{Number num}.
Local Open Scope js_scope.

Lemma loop_body_bound sol l (st : Store num) tr :
  holds st sol tr ->
  binds_names (global st) (params (this st)) ->
  exists st',
    loop_body sol l st = (Normal (euler_step (params (this st)) l), st') /\
    this st' = this st /\
    binds_names (global st') (params (this st)) /\
    delta_rob (global st')
    = Some (dRdt (params (this st)) (curr_rob l) (curr_ada l) * time_step (params (this st))) /\
    delta_ada (global st')
    = Some (dAdt (params (this st)) (curr_rob l) (curr_ada l) * time_step (params (this st))) /\
    holds st' sol (step_traj (supplying_host (params (this st))) l tr).
Proof.
  intros Hholds Hbinds.
  destruct st as [s [ap sp dr da] hp].
  unfold binds_names, host_of, supplying_host in Hbinds; simpl in Hbinds.
  injection Hbinds as -> -> Hdr Hda.
  destruct dr as [d1|]; [|discriminate]. destruct da as [d2|]; [|discriminate].
  unfold loop_body. cbn [this global params].
  destruct (appends_spec l
              (dr <- computeDrDt (curr_rob l) (curr_ada l) ;;
               ts_r <- self_params_time_step ;;
               put_delta_rob (dr * ts_r) ;;
               da <- computeDaDt (curr_rob l) (curr_ada l) ;;
               ts_a <- self_params_time_step ;;
               put_delta_ada (da * ts_a) ;;
               d_rob <- get_delta_rob ;;
               d_ada <- get_delta_ada ;;
               s <- get_this ;;
               ret {| curr_rob := curr_rob l + d_rob;
                      curr_ada := curr_ada l + d_ada;
                      curr_time := curr_time l + time_step (params s) |})
              Hholds eq_refl) as (hp' & -> & Hhp').
  simpl in Hhp'.
  unfold bind, computeDrDt, computeDaDt, get_this, ret, self_params_time_step,
    put_delta_rob, put_delta_ada, get_delta_rob, get_delta_ada; simpl.
  eexists. split; [reflexivity|]. simpl.
  split; [reflexivity|]. split; [reflexivity|].
  split; [reflexivity|]. split; [reflexivity|]. apply Hhp'.
Qed.

Lemma while_loop_no_sample fuel sol l (st : Store num) lf st' :
  visited fuel (params (this st)) l = [] ->
  while_loop fuel sol l st = (Normal lf, st') ->
  st' = st.
Proof.
  destruct fuel; simpl; unfold bind at 1, get_this at 1; simpl;
    destruct (curr_time l <=? end_ (params (this st))); try discriminate;
    unfold ret, out_of_fuel; congruence.
Qed.

Lemma while_loop_last_delta fuel sol :
  forall l (st : Store num) tr lf st' ls ll,
    holds st sol tr ->
    binds_names (global st) (params (this st)) ->
    while_loop fuel sol l st = (Normal lf, st') ->
    visited fuel (params (this st)) l = ls ++ [ll] ->
    delta_rob (global st')
    = Some (dRdt (params (this st)) (curr_rob ll) (curr_ada ll) * time_step (params (this st))) /\
    delta_ada (global st')
    = Some (dAdt (params (this st)) (curr_rob ll) (curr_ada ll) * time_step (params (this st))).
Proof.
  induction fuel as [|fuel IH]; intros l st tr lf st' ls ll Hholds Hbinds Hrun Hvis.
  - simpl in Hvis. destruct (curr_time l <=? end_ (params (this st)));
      destruct ls; discriminate.
  - revert Hrun Hvis. cbn [while_loop visited]. unfold bind at 1, get_this at 1. simpl.
    destruct (curr_time l <=? end_ (params (this st))); [|destruct ls; discriminate].
    destruct (loop_body_bound l Hholds Hbinds)
      as (st1 & Ebody & Hthis & Hbinds1 & Hrob & Hada & Hholds1).
    unfold bind. rewrite Ebody. intros Hrun Hvis.
    destruct (visited fuel (params (this st)) (euler_step (params (this st)) l))
      as [|l1 rest] eqn:Hnext.
    + assert (ll = l) by (destruct ls as [|? [|? ?]]; simpl in Hvis; congruence).
      subst ll.
      assert (Hnone : visited fuel (params (this st1)) (euler_step (params (this st)) l) = [])
        by (rewrite Hthis; exact Hnext).
      assert (st' = st1) by (eapply while_loop_no_sample; eassumption).
      subst st'. auto.
    + destruct (exists_last (l := l1 :: rest) ltac:(discriminate)) as (ls' & ll' & Elast).
      rewrite Elast in Hvis.
      change (l :: ls' ++ [ll']) with ((l :: ls') ++ [ll']) in Hvis.
      apply app_inj_tail in Hvis. destruct Hvis as (_ & ->).
      assert (Hbinds1' : binds_names (global st1) (params (this st1)))
        by (rewrite Hthis; exact Hbinds1).
      assert (Hsome : visited fuel (params (this st1)) (euler_step (params (this st)) l)
                      = ls' ++ [ll])
        by (rewrite Hthis, Hnext; exact Elast).
      rewrite <- Hthis.
      exact (IH _ _ _ _ _ _ _ Hholds1 Hbinds1' Hrun Hsome).
Qed.

End GlobalWrites.

Section GlobalWrites2.
Context {num : Type} `{Number num}.
Local Open Scope js_scope.

Lemma solution_enters_loop fuel (st : Store num) :
  exists sol st0,
    holds st0 sol empty_trajectory /\
    this st0 = this st /\ global st0 = global st /\
    solution fuel st
    = bind (while_loop fuel sol (initial_locals (this st))) (fun _ => ret sol) st0.
Proof.
  unfold solution, bind at 1 2 3 4, get_this, new_array; simpl.
  eexists. eexists. split; [|split; [|split; [|reflexivity]]]; [|reflexivity..].
  split; [|split; [|split]]; simpl;
    try (rewrite ?length_app; simpl; lia).
  unfold read_solution; simpl.
  assert (E1 : nth_error (((heap st ++ [[]]) ++ [[]]) ++ [[]]) (length (heap st))
               = Some (@nil num))
    by apply nth_error_snoc_old, nth_error_snoc_old, nth_error_snoc_new.
  assert (E2 : nth_error (((heap st ++ [[]]) ++ [[]]) ++ [[]]) (length (heap st ++ [[]]))
               = Some (@nil num))
    by apply nth_error_snoc_old, nth_error_snoc_new.
  rewrite E1, E2, nth_error_snoc_new. reflexivity.
Qed.

Lemma last_of_map {A B} (f : A -> B) (l : list A) x :
  nth_error (map f l) (pred (length (map f l))) = Some x ->
  exists ls ll, l = ls ++ [ll] /\ x = f ll.
Proof.
  destruct l as [|a l]; [discriminate|].
  destruct (exists_last (l := a :: l) ltac:(discriminate)) as (ls & ll & ->).
  rewrite map_app, length_app, Nat.add_1_r. simpl.
  rewrite nth_error_app2 by lia. rewrite Nat.sub_diag. simpl.
  intros [= <-]. eauto.
Qed.

(** X7: on a page that binds the names, a run that returns at least one
    sample leaves its last two increments in the global object: afterwards
    [delta_rob] is [dRdt(r, a) * time_step] and [delta_ada] is
    [dAdt(r, a) * time_step] for the last returned sample [(r, a)]. *)
Theorem solution_leaves_its_last_increments_in_the_globals fuel (st : Store num) tr r a :
  binds_names (global st) (params (this st)) ->
  observe (solution fuel st) = Normal (Some tr) ->
  nth_error (traj_robustness tr) (pred (length (traj_robustness tr))) = Some r ->
  nth_error (traj_adaptivity tr) (pred (length (traj_adaptivity tr))) = Some a ->
  delta_rob (global (snd (solution fuel st)))
  = Some (dRdt (params (this st)) r a * time_step (params (this st))) /\
  delta_ada (global (snd (solution fuel st)))
  = Some (dAdt (params (this st)) r a * time_step (params (this st))).
Proof.
  intros Hbinds Hrun Hr Ha.
  destruct (bound_names_run_normal fuel st Hbinds Hrun) as (-> & _).
  cbn [extend empty_trajectory traj_robustness traj_adaptivity app] in Hr, Ha.
  destruct (last_of_map _ _ Hr) as (ls & ll & Hvis & ->).
  destruct (last_of_map _ _ Ha) as (ls' & ll' & Hvis' & ->).
  rewrite Hvis in Hvis'. apply app_inj_tail in Hvis'. destruct Hvis' as (_ & <-).
  destruct (solution_enters_loop fuel st) as (sol & st0 & Hholds & Hthis & Hglobal & Esol).
  unfold observe in Hrun. rewrite Esol in *. unfold bind in *.
  destruct (while_loop fuel sol (initial_locals (this st)) st0) as [[lf | e | ] st']
    eqn:Eloop; try discriminate.
  simpl. rewrite <- Hthis in *.
  rewrite <- Hglobal in Hbinds.
  eapply while_loop_last_delta; eassumption.
Qed.

End GlobalWrites2.

Section TimeAxis.
Context {num : Type} `{Number num}.
Local Open Scope js_scope.

(** X9: on a page that binds the names, the three returned arrays have one
    length, every returned time passes the loop guard [t <= end], and each
    time after the first is the one before it plus [time_step] (the times
    are accumulated by repeated addition). *)
Theorem bound_names_time_axis fuel (st : Store num) tr :
  binds_names (global st) (params (this st)) ->
  observe (solution fuel st) = Normal (Some tr) ->
  (length (traj_robustness tr) = length (traj_time tr) /\
   length (traj_adaptivity tr) = length (traj_time tr)) /\
  (forall t, In t (traj_time tr) -> (t <=? end_ (params (this st))) = true) /\
  (forall i t', nth_error (traj_time tr) (S i) = Some t' ->
     exists t, nth_error (traj_time tr) i = Some t /\
               t' = t + time_step (params (this st))).
Proof.
  intros Hbinds Hrun.
  destruct (bound_names_run_normal fuel st Hbinds Hrun) as (-> & _).
  cbn [extend empty_trajectory traj_robustness traj_adaptivity traj_time app].
  split; [rewrite !length_map; auto|]. split.
  - intros t Hin. apply in_map_iff in Hin. destruct Hin as (l' & <- & Hin).
    exact (visited_guard _ _ _ _ Hin).
  - intros i t' Ht'. rewrite nth_error_map in Ht' |- *.
    destruct (nth_error (visited fuel _ _) (S i)) as [l2|] eqn:Hl2; [|discriminate].
    destruct (visited_succ _ _ _ _ Hl2) as (l1 & Hl1 & ->).
    rewrite Hl1. simpl in *. injection Ht' as <-. eauto.
Qed.

End TimeAxis.

Section Stalled.
Context {num : Type} `{Number num}.
Local Open Scope js_scope.

Lemma euler_stalled fuel :
  forall (s : Solver num) l tr,
    curr_time l + time_step (params s) = curr_time l ->
    (curr_time l <=? end_ (params s)) = true ->
    fst (euler fuel (supplying_host (params s)) s l tr) = OutOfFuel.
Proof.
  induction fuel as [|fuel IH]; intros s l tr Hsame Hguard; cbn [euler];
    rewrite Hguard; [reflexivity|].
  rewrite step_outcome_supplying. apply IH; cbn [euler_step curr_time];
    rewrite Hsame; assumption.
Qed.

(** X16: on a page that binds the names, when adding [time_step] to the
    initial time gives the initial time back (a zero step, or on doubles a
    step the time absorbs in rounding) and the initial time is [<= end], the
    loop never ends: no budget of iterations is enough. *)
Theorem bound_names_stalled_time_never_completes fuel (st : Store num) :
  binds_names (global st) (params (this st)) ->
  time (initial_values (this st)) + time_step (params (this st))
  = time (initial_values (this st)) ->
  (time (initial_values (this st)) <=? end_ (params (this st))) = true ->
  observe (solution fuel st) = OutOfFuel.
Proof.
  intros Hbinds Hsame Hguard.
  rewrite solution_spec. unfold binds_names in Hbinds. rewrite Hbinds.
  unfold euler_result.
  pose proof (euler_stalled fuel (this st) (initial_locals (this st)) empty_trajectory
                Hsame Hguard) as Hout.
  destruct (euler fuel (supplying_host (params (this st))) (this st)
              (initial_locals (this st)) empty_trajectory) as [[l | e | ] tr];
    simpl in Hout; congruence.
Qed.

End Stalled.

Section FloatEdges.
Local Open Scope float_scope.

Lemma add_nan_l x : nan + x = nan.
Proof.
  apply Prim2SF_inj. rewrite add_spec.
  change (Prim2SF nan) with S754_nan. reflexivity.
Qed.

Lemma mul_nan_l x : nan * x = nan.
Proof.
  apply Prim2SF_inj. rewrite mul_spec.
  change (Prim2SF nan) with S754_nan. reflexivity.
Qed.

Lemma mul_nan_r x : x * nan = nan.
Proof.
  apply Prim2SF_inj. rewrite mul_spec.
  change (Prim2SF nan) with S754_nan.
  destruct (Prim2SF x); reflexivity.
Qed.

Lemma sub_nan_l x : nan - x = nan.
Proof.
  apply Prim2SF_inj. rewrite sub_spec.
  change (Prim2SF nan) with S754_nan. reflexivity.
Qed.

Lemma sub_nan_r x : x - nan = nan.
Proof.
  apply Prim2SF_inj. rewrite sub_spec.
  change (Prim2SF nan) with S754_nan.
  destruct (Prim2SF x); reflexivity.
Qed.

Lemma leb_nan_r x : (x <=? nan) = false.
Proof.
  rewrite leb_spec. change (Prim2SF nan) with S754_nan.
  destruct (Prim2SF x); reflexivity.
Qed.

(** X15: on JavaScript numbers, when the initial time or [end] is NaN the
    guard of the loop is false at once: on every page the getter returns its
    three empty arrays and throws nothing. *)
Theorem nan_time_or_end_returns_empty fuel (st : Store float) :
  time (initial_values (this st)) = nan \/ end_ (params (this st)) = nan ->
  observe (solution fuel st) = Normal (Some empty_trajectory).
Proof.
  intros Hnan. rewrite solution_spec. apply euler_result_guard_false.
  cbn [num_leb float_Number].
  destruct Hnan as [-> | ->]; [apply leb_nan_l | apply leb_nan_r].
Qed.

(** X18: on JavaScript numbers, both derivative methods return NaN as soon
    as either argument is NaN, whatever the parameters are, and leave the
    store as it was. *)
Theorem derivatives_propagate_nan (st : Store float) (x : float) :
  computeDrDt nan x st = (Normal nan, st) /\
  computeDrDt x nan st = (Normal nan, st) /\
  computeDaDt nan x st = (Normal nan, st) /\
  computeDaDt x nan st = (Normal nan, st).
Proof.
  unfold computeDrDt, computeDaDt, bind, get_this, ret, dRdt, dAdt.
  cbn [num_add num_sub num_mul num_one float_Number].
  repeat split; do 2 f_equal;
    rewrite ?mul_nan_r, ?mul_nan_l, ?add_nan_r, ?add_nan_l, ?sub_nan_r, ?sub_nan_l,
      ?mul_nan_l, ?sub_nan_l, ?add_nan_l; reflexivity.
Qed.

(** X19: on JavaScript numbers and a page that binds the names, a NaN in
    the state is never recovered from: when the robustness or the adaptivity
    of a returned sample is NaN, both are NaN in the next sample. *)
Theorem bound_names_nan_state_persists fuel (st : Store float) tr i r a r' a' :
  binds_names (global st) (params (this st)) ->
  observe (solution fuel st) = Normal (Some tr) ->
  nth_error (traj_robustness tr) i = Some r ->
  nth_error (traj_adaptivity tr) i = Some a ->
  r = nan \/ a = nan ->
  nth_error (traj_robustness tr) (S i) = Some r' ->
  nth_error (traj_adaptivity tr) (S i) = Some a' ->
  r' = nan /\ a' = nan.
Proof.
  intros Hbinds Hrun Hr Ha Hnan Hr' Ha'.
  destruct (bound_names_run_normal fuel st Hbinds Hrun) as (-> & _).
  cbn [extend empty_trajectory traj_robustness traj_adaptivity app] in *.
  rewrite nth_error_map in Hr, Ha, Hr', Ha'.
  destruct (nth_error (visited fuel _ _) (S i)) as [l2|] eqn:Hl2; [|discriminate].
  destruct (visited_succ _ _ _ _ Hl2) as (l1 & Hl1 & ->).
  rewrite Hl1 in Hr, Ha. simpl in Hr, Ha, Hr', Ha'.
  injection Hr as <-. injection Ha as <-. injection Hr' as <-. injection Ha' as <-.
  unfold dRdt, dAdt. cbn [num_add num_sub num_mul num_one float_Number].
  destruct Hnan as [-> | ->];
    rewrite ?mul_nan_r, ?mul_nan_l, ?add_nan_r, ?add_nan_l, ?sub_nan_r, ?sub_nan_l,
      ?mul_nan_l, ?sub_nan_l, ?add_nan_l, ?mul_nan_l, ?add_nan_r, ?add_nan_l;
    split; reflexivity.
Qed.

End FloatEdges.

Section TwoParams.
Context {num : Type} `{Number num}.
Local Open Scope js_scope.

Lemma step_outcome_page_params (s : Solver num) sp l :
  step_outcome (page_params_host sp) s l = Normal (page_step (params s) sp l).
Proof. reflexivity. Qed.

Lemma extend_page_step (sp : Params num) (tr : Trajectory num) l ls :
  extend (step_traj (page_params_host sp) l tr) ls = extend tr (l :: ls).
Proof.
  unfold extend, step_traj. simpl. rewrite <- !app_assoc. reflexivity.
Qed.

Lemma euler_page_params fuel :
  forall (s : Solver num) sp l tr,
    snd (euler fuel (page_params_host sp) s l tr)
    = extend tr (page_visited fuel (params s) sp l).
Proof.
  induction fuel as [|fuel IH]; intros s sp l tr; cbn [euler page_visited];
    destruct (curr_time l <=? end_ (params s)); cbn [fst snd];
    try (rewrite extend_nil; reflexivity).
  rewrite step_outcome_page_params, IH. apply extend_page_step.
Qed.

Lemma page_visited_head fuel (p sp : Params num) l l' :
  nth_error (page_visited fuel p sp l) 0 = Some l' -> l' = l.
Proof.
  destruct fuel; simpl; destruct (curr_time l <=? end_ p); simpl; congruence.
Qed.

Lemma page_visited_succ fuel :
  forall (p sp : Params num) l i l2,
    nth_error (page_visited fuel p sp l) (S i) = Some l2 ->
    exists l1, nth_error (page_visited fuel p sp l) i = Some l1 /\ l2 = page_step p sp l1.
Proof.
  induction fuel as [|fuel IH]; intros p sp l i l2; simpl;
    destruct (curr_time l <=? end_ p); simpl; try discriminate.
  intros Hnext. destruct i as [|i].
  - exists l. split; [reflexivity|]. exact (page_visited_head _ _ _ _ Hnext).
  - destruct (IH _ _ _ _ _ Hnext) as (l1 & Hl1 & ->). exists l1. auto.
Qed.

(** X20: the loop scales the increments of the state by
    [self.params.time_step] and advances the time by
    [this.params.time_step].  On a page whose global [params] object [sp]
    is not the solver's own, each returned sample after the first is
    [r + dRdt(r, a) * sp.time_step], [a + dAdt(r, a) * sp.time_step] at time
    [t + this.params.time_step], the derivatives taken with the solver's
    coefficients. *)
Theorem page_params_scale_the_increments fuel (st : Store num) sp tr i r' a' t' :
  host_of (global st) = page_params_host sp ->
  observe (solution fuel st) = Normal (Some tr) ->
  nth_error (traj_robustness tr) (S i) = Some r' ->
  nth_error (traj_adaptivity tr) (S i) = Some a' ->
  nth_error (traj_time tr) (S i) = Some t' ->
  exists r a t,
    nth_error (traj_robustness tr) i = Some r /\
    nth_error (traj_adaptivity tr) i = Some a /\
    nth_error (traj_time tr) i = Some t /\
    r' = r + dRdt (params (this st)) r a * time_step sp /\
    a' = a + dAdt (params (this st)) r a * time_step sp /\
    t' = t + time_step (params (this st)).
Proof.
  intros Hpage Hrun Hr' Ha' Ht'.
  rewrite solution_spec, Hpage in Hrun. unfold euler_result in Hrun.
  pose proof (euler_page_params fuel (this st) sp (initial_locals (this st))
                empty_trajectory) as Htraj.
  destruct (euler fuel (page_params_host sp) (this st) (initial_locals (this st))
              empty_trajectory) as [[lf | e | ] tr0]; try discriminate.
  injection Hrun as ->. simpl in Htraj. subst tr.
  cbn [extend empty_trajectory traj_robustness traj_adaptivity traj_time app] in *.
  rewrite nth_error_map in Hr', Ha', Ht'. rewrite !nth_error_map.
  destruct (nth_error (page_visited fuel _ _ _) (S i)) as [l2|] eqn:Hl2; [|discriminate].
  destruct (page_visited_succ _ _ _ _ _ Hl2) as (l1 & Hl1 & ->).
  rewrite Hl1. simpl in *.
  exists (curr_rob l1), (curr_ada l1), (curr_time l1).
  repeat split; congruence.
Qed.

End TwoParams.

(** ** The time the loop advances *)

Section Advancing.
Context {num : Type} `{Number num}.
Local Open Scope js_scope.

Lemma advanced_time_shift (p : Params num) k t :
  advanced_time p k (t + time_step p) = advanced_time p (S k) t.
Proof.
  unfold advanced_time. rewrite Nat.iter_succ_r. reflexivity.
Qed.

(** The loop is over at the latest when the advanced time fails its guard. *)
Lemma euler_completes_when_time_passes_end k :
  forall n h (s : Solver num) l tr,
    (advanced_time (params s) k (curr_time l) <=? end_ (params s)) = false ->
    k <= n ->
    fst (euler n h s l tr) <> OutOfFuel.
Proof.
  induction k as [|k IH]; intros n h s l tr Hpast Hle.
  - simpl in Hpast. destruct n; simpl; rewrite Hpast; simpl; discriminate.
  - destruct n as [|n]; [lia|]. cbn [euler].
    destruct (curr_time l <=? end_ (params s)); [|simpl; discriminate].
    destruct (step_outcome h s l) as [l' | e | ] eqn:Hout.
    + apply IH; [|lia].
      rewrite (step_outcome_time _ _ _ Hout), advanced_time_shift. exact Hpast.
    + simpl. discriminate.
    + exfalso. exact (step_outcome_not_out_of_fuel _ _ _ Hout).
Qed.

(** C6 (as amended): the getter terminates as soon as the time it advances
    fails the guard of its loop.  When [k] successive additions of
    [time_step] to the initial time, in the arithmetic of the code, give a
    time that is not [<= end], the getter finishes (returns or throws)
    within [k] iterations, on every page. *)
Theorem solution_terminates_when_time_passes_end k (st : Store num) :
  (advanced_time (params (this st)) k (time (initial_values (this st)))
   <=? end_ (params (this st))) = false ->
  forall n, k <= n -> completes_within n st.
Proof.
  intros Hpast n Hle. apply completes_within_euler.
  eapply euler_completes_when_time_passes_end; eassumption.
Qed.

Lemma visited_advanced_time fuel (p : Params num) l :
  forall i l',
    nth_error (visited fuel p l) i = Some l' ->
    curr_time l' = advanced_time p i (curr_time l).
Proof.
  induction i as [|i IH]; intros l' Hi.
  - rewrite (visited_head _ _ _ Hi). reflexivity.
  - destruct (visited_succ _ _ _ _ Hi) as (l1 & Hl1 & ->).
    simpl. rewrite (IH _ Hl1). reflexivity.
Qed.

Lemma visited_length k :
  forall n (p : Params num) l,
    k <= n ->
    (forall j, j < k -> (advanced_time p j (curr_time l) <=? end_ p) = true) ->
    (advanced_time p k (curr_time l) <=? end_ p) = false ->
    length (visited n p l) = k.
Proof.
  induction k as [|k IH]; intros n p l Hle Hbefore Hpast.
  - simpl in Hpast. destruct n; simpl; rewrite Hpast; reflexivity.
  - destruct n as [|n]; [lia|]. simpl.
    rewrite (Hbefore 0 (Nat.lt_0_succ k) : (curr_time l <=? end_ p) = true).
    simpl. f_equal. apply IH; [lia | |].
    + intros j Hj. cbn [euler_step curr_time]. rewrite advanced_time_shift.
      apply Hbefore. lia.
    + cbn [euler_step curr_time]. rewrite advanced_time_shift. exact Hpast.
Qed.

(** X11: on a page that binds the names, the returned times are the
    advanced times up to the first one that fails the guard.  When
    [time_step] added [j] times to the initial time passes [t <= end] for
    every [j < k] and fails it for [j = k], the getter returns exactly [k]
    samples and the [i]-th time is [time_step] added [i] times to the
    initial time, in the arithmetic of the code. *)
Theorem bound_names_samples_are_the_advanced_times k n (st : Store num) :
  binds_names (global st) (params (this st)) ->
  (forall j, j < k ->
     (advanced_time (params (this st)) j (time (initial_values (this st)))
      <=? end_ (params (this st))) = true) ->
  (advanced_time (params (this st)) k (time (initial_values (this st)))
   <=? end_ (params (this st))) = false ->
  k <= n ->
  exists tr,
    observe (solution n st) = Normal (Some tr) /\
    length (traj_time tr) = k /\
    forall i, i < k ->
      nth_error (traj_time tr) i
      = Some (advanced_time (params (this st)) i (time (initial_values (this st)))).
Proof.
  intros Hbinds Hbefore Hpast Hle.
  assert (Hdone : fst (euler n (supplying_host (params (this st))) (this st)
                         (initial_locals (this st)) empty_trajectory) <> OutOfFuel)
    by (eapply euler_completes_when_time_passes_end; eassumption).
  destruct (bound_names_run n st Hbinds) as [Hout | Hnormal].
  { exfalso. rewrite solution_spec in Hout. unfold binds_names in Hbinds.
    rewrite Hbinds in Hout. unfold euler_result in Hout.
    destruct (euler n (supplying_host (params (this st))) (this st)
                (initial_locals (this st)) empty_trajectory) as [[l | e | ] tr];
      simpl in Hdone; congruence. }
  eexists. split; [exact Hnormal|].
  cbn [extend empty_trajectory traj_time app].
  assert (Hlen : length (visited n (params (this st)) (initial_locals (this st))) = k)
    by (apply visited_length; assumption).
  split; [rewrite length_map; exact Hlen|].
  intros i Hi. rewrite nth_error_map.
  destruct (nth_error (visited n (params (this st)) (initial_locals (this st))) i)
    as [l'|] eqn:Hl'.
  - simpl. f_equal. exact (visited_advanced_time _ _ _ _ Hl').
  - apply nth_error_None in Hl'. lia.
Qed.

(** X12: on a page that binds the names, the last returned time passes the
    guard [t <= end] and the time advanced once more fails it. *)
Theorem bound_names_last_time fuel (st : Store num) tr t :
  binds_names (global st) (params (this st)) ->
  observe (solution fuel st) = Normal (Some tr) ->
  nth_error (traj_time tr) (pred (length (traj_time tr))) = Some t ->
  (t <=? end_ (params (this st))) = true /\
  (t + time_step (params (this st)) <=? end_ (params (this st))) = false.
Proof.
  intros Hbinds Hrun Hlast.
  destruct (bound_names_run_normal fuel st Hbinds Hrun) as (-> & lf & Hlf).
  cbn [extend empty_trajectory traj_time app] in *.
  destruct (euler_supplying_final _ _ _ _ Hlf)
    as (Hexit & [(Hnone & _) | (ls & ll & Hsome & ->)]).
  - rewrite Hnone in Hlast. discriminate.
  - rewrite Hsome in Hlast.
    rewrite map_app, length_app, Nat.add_1_r in Hlast. simpl in Hlast.
    rewrite nth_error_app2 in Hlast by lia.
    rewrite Nat.sub_diag in Hlast. injection Hlast as <-.
    split; [|exact Hexit].
    apply (visited_guard fuel (params (this st)) (initial_locals (this st))).
    rewrite Hsome. apply in_or_app. right. left. reflexivity.
Qed.

Lemma visited_unchanged_state fuel :
  forall (p : Params num) l l',
    curr_rob l + dRdt p (curr_rob l) (curr_ada l) * time_step p = curr_rob l ->
    curr_ada l + dAdt p (curr_rob l) (curr_ada l) * time_step p = curr_ada l ->
    In l' (visited fuel p l) ->
    curr_rob l' = curr_rob l /\ curr_ada l' = curr_ada l.
Proof.
  induction fuel as [|fuel IH]; intros p l l' Hr Ha; simpl;
    destruct (curr_time l <=? end_ p); simpl; try contradiction.
  intros [<- | Hin]; [split; reflexivity|].
  assert (Er : curr_rob (euler_step p l) = curr_rob l) by exact Hr.
  assert (Ea : curr_ada (euler_step p l) = curr_ada l) by exact Ha.
  rewrite <- Er, <- Ea. apply (IH p); [rewrite Er, Ea; assumption .. | exact Hin].
Qed.

(** X13: on a page that binds the names, when one Euler step leaves the
    initial state as it is (the initial robustness plus
    [dRdt * time_step] is the initial robustness again, and likewise for
    the adaptivity, in the arithmetic of the code), every returned sample
    has the initial robustness and adaptivity. *)
Theorem bound_names_unchanged_state_stays fuel (st : Store num) tr :
  binds_names (global st) (params (this st)) ->
  observe (solution fuel st) = Normal (Some tr) ->
  robustness (initial_values (this st))
  + dRdt (params (this st)) (robustness (initial_values (this st)))
      (adaptivity (initial_values (this st))) * time_step (params (this st))
  = robustness (initial_values (this st)) ->
  adaptivity (initial_values (this st))
  + dAdt (params (this st)) (robustness (initial_values (this st)))
      (adaptivity (initial_values (this st))) * time_step (params (this st))
  = adaptivity (initial_values (this st)) ->
  Forall (fun r => r = robustness (initial_values (this st))) (traj_robustness tr) /\
  Forall (fun a => a = adaptivity (initial_values (this st))) (traj_adaptivity tr).
Proof.
  intros Hbinds Hrun Hr Ha.
  destruct (bound_names_run_normal fuel st Hbinds Hrun) as (-> & _).
  cbn [extend empty_trajectory traj_robustness traj_adaptivity app].
  split; apply Forall_forall; intros x Hx; apply in_map_iff in Hx;
    destruct Hx as (l' & <- & Hin);
    apply (@visited_unchanged_state fuel (params (this st)) (initial_locals (this st)) l'
             Hr Ha Hin).
Qed.

Lemma euler_lasts_while_guard_holds n :
  forall (s : Solver num) l tr,
    (forall j, j <= n ->
       (advanced_time (params s) j (curr_time l) <=? end_ (params s)) = true) ->
    fst (euler n (supplying_host (params s)) s l tr) = OutOfFuel.
Proof.
  induction n as [|n IH]; intros s l tr Hguard; cbn [euler];
    rewrite (Hguard 0 (Nat.le_0_l _) : (curr_time l <=? end_ (params s)) = true);
    [reflexivity|].
  rewrite step_outcome_supplying. apply IH.
  intros j Hj. cbn [euler_step curr_time]. rewrite advanced_time_shift.
  apply Hguard. lia.
Qed.

(** X14: on a page that binds the names, the getter does not finish within
    [n] iterations as long as [time_step] added [j] times to the initial
    time passes [t <= end] for every [j <= n]; a negative [time_step]
    started at or before [end] runs backward in this way. *)
Theorem bound_names_run_lasts_while_guard_holds n (st : Store num) :
  binds_names (global st) (params (this st)) ->
  (forall j, j <= n ->
     (advanced_time (params (this st)) j (time (initial_values (this st)))
      <=? end_ (params (this st))) = true) ->
  observe (solution n st) = OutOfFuel.
Proof.
  intros Hbinds Hguard.
  rewrite solution_spec. unfold binds_names in Hbinds. rewrite Hbinds.
  unfold euler_result.
  pose proof (euler_lasts_while_guard_holds (this st) (initial_locals (this st))
                empty_trajectory Hguard) as Hout.
  destruct (euler n (supplying_host (params (this st))) (this st)
              (initial_locals (this st)) empty_trajectory) as [[l | e | ] tr];
    simpl in Hout; congruence.
Qed.

End Advancing.

(** ** The hypotheses above are met *)

Section FloatWitnesses.
Local Open Scope float_scope.
Import Scenario.

Lemma first_unbound_name_decides_the_error_witness :
  observe (solution 1 (initial_store constant_drive standard_global)) = Throw TypeError /\
  observe (solution 1 (initial_store constant_drive
                         (undeclared_delta_global (params constant_drive))))
  = Throw ReferenceError.
Proof.
  split.
  - apply (proj1 (@first_unbound_name_decides_the_error float float_Number 0
                    (initial_store constant_drive standard_global) ltac:(reflexivity))).
    reflexivity.
  - apply (proj1 (proj2 (proj2
             (@first_unbound_name_decides_the_error float float_Number 0
                (initial_store constant_drive
                   (undeclared_delta_global (params constant_drive)))
                ltac:(reflexivity)))));
      simpl; congruence.
Defined.

Lemma solution_leaves_its_last_increments_in_the_globals_witness :
  delta_rob (global (snd (solution 3 bound_constant_drive)))
  = Some (PrimFloat.mul (dRdt (params constant_drive) 1 1) 1) /\
  delta_ada (global (snd (solution 3 bound_constant_drive)))
  = Some (PrimFloat.mul (dAdt (params constant_drive) 1 1) 1).
Proof.
  apply (@solution_leaves_its_last_increments_in_the_globals float float_Number 3
           bound_constant_drive constant_drive_trajectory 1 1);
    reflexivity.
Defined.

Lemma bound_names_euler_update_witness :
  exists r a,
    nth_error [0; 0.5; 1] 0 = Some r /\
    nth_error [0; 0.5; 1] 0 = Some a /\
    0.5 = PrimFloat.add r (PrimFloat.mul (dRdt (params constant_drive) r a) 1) /\
    0.5 = PrimFloat.add a (PrimFloat.mul (dAdt (params constant_drive) r a) 1).
Proof.
  apply (@bound_names_euler_update float float_Number 3 bound_constant_drive
           constant_drive_trajectory ltac:(reflexivity) ltac:(reflexivity) 0%nat 0.5 0.5 ltac:(reflexivity) ltac:(reflexivity)).
Defined.

Lemma bound_names_time_axis_witness :
  length (traj_robustness constant_drive_trajectory)
  = length (traj_time constant_drive_trajectory) /\
  length (traj_adaptivity constant_drive_trajectory)
  = length (traj_time constant_drive_trajectory).
Proof.
  apply (@bound_names_time_axis float float_Number 3 bound_constant_drive
           constant_drive_trajectory ltac:(reflexivity) ltac:(reflexivity)).
Defined.

Lemma bound_names_first_sample_witness :
  nth_error (traj_robustness constant_drive_trajectory) 0 = Some 0 /\
  nth_error (traj_adaptivity constant_drive_trajectory) 0 = Some 0 /\
  nth_error (traj_time constant_drive_trajectory) 0 = Some 0.
Proof.
  apply (@bound_names_first_sample float float_Number 3 bound_constant_drive
           constant_drive_trajectory ltac:(reflexivity) ltac:(reflexivity) ltac:(reflexivity)).
Defined.

Lemma nan_time_or_end_returns_empty_witness :
  observe (solution 4 nan_start) = Normal (Some empty_trajectory).
Proof.
  apply (nan_time_or_end_returns_empty 4 nan_start). left. reflexivity.
Defined.

Lemma bound_names_stalled_time_never_completes_witness :
  observe (solution 1000 bound_absorbed_step) = OutOfFuel.
Proof.
  apply (@bound_names_stalled_time_never_completes float float_Number 1000 bound_absorbed_step);
    reflexivity.
Defined.

Lemma bound_names_nan_step_witness :
  observe (solution 1 bound_nan_step)
  = Normal (Some {| traj_robustness := [0]; traj_adaptivity := [0]; traj_time := [0] |}).
Proof.
  apply (bound_names_nan_step 0 bound_nan_step); reflexivity.
Defined.

Lemma bound_names_nan_state_persists_witness : nan = nan /\ nan = nan.
Proof.
  apply (@bound_names_nan_state_persists 2 nan_state nan_state_trajectory 0 nan 0 nan nan);
    try reflexivity.
  left. reflexivity.
Defined.

Lemma page_params_scale_the_increments_witness :
  exists r a t,
    nth_error [0; 1; 2] 0 = Some r /\
    nth_error [0; 1; 2] 0 = Some a /\
    nth_error [0; 1; 2] 0 = Some t /\
    1 = PrimFloat.add r (PrimFloat.mul (dRdt (params constant_drive) r a) 2) /\
    1 = PrimFloat.add a (PrimFloat.mul (dAdt (params constant_drive) r a) 2) /\
    1 = PrimFloat.add t 1.
Proof.
  apply (@page_params_scale_the_increments float float_Number 3 page_with_other_params _
           other_params_trajectory 0%nat 1 1 1 ltac:(reflexivity) ltac:(reflexivity) ltac:(reflexivity) ltac:(reflexivity) ltac:(reflexivity)).
Defined.

End FloatWitnesses.

(** ** The derivative methods and the time on JavaScript numbers *)

Section FloatClaims.
Local Open Scope float_scope.
Import Scenario.

(** C3 (as amended): on JavaScript numbers [computeDrDt] returns
    [alpha_r*(1 - q) + gamma_r0*rob - ((gamma_r2*rob)*rob)*rob - beta_a*ada]
    and [computeDaDt] returns [alpha_a*q - gamma_a*ada + beta_r*rob], every
    operation a double operation and the operators associated to the left
    as JavaScript does; both complete normally and leave the store as it
    was. *)
Theorem derivatives_compute_left_to_right (st : Store float) (rob ada : float) :
  computeDrDt rob ada st
  = (Normal (alpha_r (params (this st)) * (1 - q (params (this st)))
             + gamma_r0 (params (this st)) * rob
             - ((gamma_r2 (params (this st)) * rob) * rob) * rob
             - beta_a (params (this st)) * ada), st) /\
  computeDaDt rob ada st
  = (Normal (alpha_a (params (this st)) * q (params (this st))
             - gamma_a (params (this st)) * ada
             + beta_r (params (this st)) * rob), st).
Proof.
  unfold computeDrDt, computeDaDt, bind, get_this, ret, dRdt, dAdt.
  split; reflexivity.
Qed.

(** C3 as stated fails on JavaScript numbers: the product
    [gamma_r2*rob*rob*rob] of the code is not [gamma_r2] times the cube of
    [rob].  With [gamma_r2] nearest to [0.9] and [rob = 3] the two differ
    in the last place; with [gamma_r2] nearest to [1e-300] and [rob]
    nearest to [1e200] the code returns about [-1e300] where the cube
    overflows and the formula gives [-infinity]. *)
Lemma cube_grouping_changes_the_result :
  (dRdt cubic_only 3 0 = -0x1.84ccccccccccep+4 /\
   dRdt_with_cube cubic_only 3 0 = -0x1.84ccccccccccdp+4 /\
   dRdt cubic_only 3 0 <> dRdt_with_cube cubic_only 3 0) /\
  (dRdt tiny_cubic 0x1.4e718d7d7625ap+664 0 = -0x1.7e43c8800759cp+996 /\
   dRdt_with_cube tiny_cubic 0x1.4e718d7d7625ap+664 0 = neg_infinity /\
   dRdt tiny_cubic 0x1.4e718d7d7625ap+664 0
   <> dRdt_with_cube tiny_cubic 0x1.4e718d7d7625ap+664 0).
Proof.
  split; (split; [reflexivity|]; split; [reflexivity|]);
    intros Heq;
    apply (f_equal (fun x => PrimFloat.eqb x (dRdt_with_cube cubic_only 3 0)
                             || PrimFloat.eqb x neg_infinity)) in Heq;
    vm_compute in Heq; discriminate.
Qed.

(** The amended C6 at the worked run: three additions of [1] to [0] give
    [3], which is past [end = 2]. *)
Lemma solution_terminates_when_time_passes_end_witness :
  completes_within 3 (initial_store constant_drive standard_global) /\
  completes_within 3 bound_constant_drive.
Proof.
  split.
  - apply (@solution_terminates_when_time_passes_end float float_Number 3
             (initial_store constant_drive standard_global) ltac:(reflexivity) 3).
    lia.
  - apply (@solution_terminates_when_time_passes_end float float_Number 3
             bound_constant_drive ltac:(reflexivity) 3).
    lia.
Defined.

(** Steps of a tenth: [0.1 + 0.1 + 0.1] is [0.30000000000000004] on
    doubles and fails [t <= 0.3], so three samples are returned. *)
Lemma bound_names_samples_are_the_advanced_times_witness :
  exists tr,
    observe (solution 4 tenth_steps) = Normal (Some tr) /\
    length (traj_time tr) = 3%nat /\
    forall i, (i < 3)%nat ->
      nth_error (traj_time tr) i
      = Some (advanced_time (params (this tenth_steps)) i
                (time (initial_values (this tenth_steps)))).
Proof.
  apply (@bound_names_samples_are_the_advanced_times float float_Number 3 4 tenth_steps).
  - reflexivity.
  - intros j Hj. destruct j as [|[|[|j]]]; [reflexivity | reflexivity | reflexivity | lia].
  - reflexivity.
  - lia.
Defined.

Lemma bound_names_last_time_witness :
  (2 <=? end_ (params (this bound_constant_drive))) = true /\
  (2 + time_step (params (this bound_constant_drive))
   <=? end_ (params (this bound_constant_drive))) = false.
Proof.
  apply (@bound_names_last_time float float_Number 3 bound_constant_drive
           constant_drive_trajectory 2
           ltac:(reflexivity) ltac:(reflexivity) ltac:(reflexivity)).
Defined.

Lemma bound_names_unchanged_state_stays_witness :
  Forall (fun r => r = 1) [1; 1; 1] /\ Forall (fun a => a = 1) [1; 1; 1].
Proof.
  apply (@bound_names_unchanged_state_stays float float_Number 3 bound_equilibrium
           {| traj_robustness := [1; 1; 1]; traj_adaptivity := [1; 1; 1];
              traj_time := [0; 1; 2] |}
           ltac:(reflexivity) ltac:(reflexivity) ltac:(reflexivity) ltac:(reflexivity)).
Defined.

Lemma bound_names_run_lasts_while_guard_holds_witness :
  observe (solution 5 backward) = OutOfFuel.
Proof.
  apply (@bound_names_run_lasts_while_guard_holds float float_Number 5 backward).
  - reflexivity.
  - intros j Hj.
    destruct j as [|[|[|[|[|[|j]]]]]]; [reflexivity .. | lia].
Defined.

End FloatClaims.
